(** * Duplicate detection of processphotogallery: exact and visual grouping

    Shallow embedding of [get_file_hash], [get_phash] and [analyze] of
    [individual/duplicate_detector.py] (the same code is repeated in
    [processphotogallery.py]), and the properties of the report they
    produce. *)

From Stdlib Require Import ZArith Lia.
From stdpp Require Import base list strings gmap sets pretty sorting.

Local Open Scope Z_scope.

(** Paths, digests and group identifiers are Python [str] values. *)
Abbreviation path := string.

(** ** Python dictionaries

    A [dict] keeps its keys in insertion order, and that order is what
    [items()] and [keys()] iterate over; the report depends on it, so a
    dictionary is an association list in insertion order without repeated
    keys. *)
Module PyDict.
Section ordered_dict.
Context {K V : Type} `{EqDecision K}.

Definition dict := list (K * V).

(** [d[k]]; [None] stands for [KeyError]. *)
Fixpoint get (d : dict) (k : K) : option V :=
  match d with
  | [] => None
  | (k', v) :: d' => if decide (k = k') then Some v else get d' k
  end.

(** [d[k] = f(d.get(k))]: an existing key keeps its position, a new key
    goes last. *)
Fixpoint upsert (f : option V → V) (k : K) (d : dict) : dict :=
  match d with
  | [] => [(k, f None)]
  | (k', v) :: d' =>
      if decide (k = k') then (k', f (Some v)) :: d'
      else (k', v) :: upsert f k d'
  end.

(** [d[k] = v]. *)
Definition set (k : K) (v : V) (d : dict) : dict := upsert (λ _, v) k d.

(** [list(d.keys())]. *)
Definition keys (d : dict) : list K := d.*1.
End ordered_dict.

(** [d[k].append(x)] on a [defaultdict(list)]: a missing key is first
    bound to the empty list. *)
Definition append {K V : Type} `{EqDecision K}
    (k : K) (x : V) (d : list (K * list V)) : list (K * list V) :=
  upsert (λ o, default [] o ++ [x]) k d.
End PyDict.

(** ** The outside world

    [hashlib.md5] is taken as an abstract streaming hasher. *)
Record md5_hasher := {
  md5_state : Type;
  md5_new : md5_state;
  md5_update : md5_state → list Byte.byte → md5_state;
  md5_hexdigest : md5_state → string
}.

(** What the file system and the image decoder answer for a path:
    [fs_read] is the whole content delivered by [open] and the successive
    [read]s, [None] when either raises; [fs_phash] is what [Image.open]
    followed by [imagehash.phash] returns, [None] when either raises.  A
    perceptual hash is a vector of 64 bits, kept as the integer having
    these bits. *)
Record filesystem := {
  fs_read : path → option (list Byte.byte);
  fs_phash : path → option Z
}.

(** ** Perceptual signatures *)

(** [imagehash.phash] with its default [hash_size = 8] gives 8 x 8 bits. *)
Definition phash_bits : nat := 64.

(** Number of set bits among the 64 positions of a signature. *)
Definition count_nonzero (z : Z) : nat :=
  length (filter (λ i : nat, Z.testbit z (Z.of_nat i) = true) (seq 0 phash_bits)).

(** [ImageHash.__sub__]: the number of positions where two hashes differ. *)
Definition hamming (a b : Z) : Z := Z.of_nat (count_nonzero (Z.lxor a b)).

(** A signature that really is 64 bits wide. *)
Definition wf_phash (s : Z) : Prop := 0 ≤ s < 2 ^ 64.

(** ** Fingerprinters *)

Definition default_chunk_size : nat := Z.to_nat 8192.

(** The loop [while chunk := f.read(chunk_size): hasher.update(chunk)];
    every turn consumes a chunk, and an empty chunk ends the loop. *)
Fixpoint read_chunks (hs : md5_hasher) (fuel chunk_size : nat)
    (data : list Byte.byte) (hasher : md5_state hs) : md5_state hs :=
  match fuel with
  | O => hasher
  | S fuel' =>
      match take chunk_size data with
      | [] => hasher
      | chunk =>
          read_chunks hs fuel' chunk_size (drop chunk_size data)
            (md5_update hs hasher chunk)
      end
  end.

Definition get_file_hash (hs : md5_hasher) (fs : filesystem)
    (filepath : path) (chunk_size : nat) : option string :=
  match fs_read fs filepath with
  | Some data =>
      Some (md5_hexdigest hs
              (read_chunks hs (S (length data)) chunk_size data (md5_new hs)))
  | None => None
  end.

Definition get_phash (fs : filesystem) (filepath : path) : option Z :=
  fs_phash fs filepath.

(** Truth value of a string, as in [if file_hash:]: only the empty string
    is false. *)
Definition truthy (s : string) : bool := bool_decide (s ≠ "").

(** ** The analysis *)

Definition SIMILARITY_THRESHOLD : Z := 5.

Record row := {
  type : string;
  group_id : string;
  file_path : path
}.

#[global] Instance row_eq_dec : EqDecision row.
Proof. solve_decision. Defined.

Section analysis.
Variable hs : md5_hasher.
Variable fs : filesystem.
(** The module constant [SIMILARITY_THRESHOLD]. *)
Variable threshold : Z.

(** STEP 1: one turn of the hashing loop.  An [ImageHash] has 64 bits and
    its truth value is that of its length, so [if phash:] only tells
    [None] apart. *)
Definition hash_image
    (maps : list (string * list path) * list (path * Z)) (p : path)
    : list (string * list path) * list (path * Z) :=
  let '(exact_hash_map, phash_map) := maps in
  let file_hash := get_file_hash hs fs p default_chunk_size in
  let exact_hash_map :=
    match file_hash with
    | Some h =>
        if truthy h then PyDict.append h p exact_hash_map else exact_hash_map
    | None => exact_hash_map
    end in
  let phash := get_phash fs p in
  let phash_map :=
    match phash with
    | Some s => PyDict.set p s phash_map
    | None => phash_map
    end in
  (exact_hash_map, phash_map).

Definition hash_images (image_files : list path)
    : list (string * list path) * list (path * Z) :=
  foldl hash_image ([], []) image_files.

(** STEP 2. *)
Definition exact_duplicates (exact_hash_map : list (string * list path))
    : list (string * list path) :=
  filter (λ hp, (1 < length hp.2)%nat) exact_hash_map.

(** STEP 3, the loop over [j]: [rest] is [files[j:]], the state is
    [(group, visited)]; a failed lookup in [phash_map] is [None]. *)
Fixpoint scan_candidates (phash_map : list (path * Z)) (fi : path)
    (rest : list path) (st : list path * gset path)
    : option (list path * gset path) :=
  match rest with
  | [] => Some st
  | fj :: rest' =>
      if decide (fj ∈ st.2) then scan_candidates phash_map fi rest' st
      else
        hi ← PyDict.get phash_map fi;
        hj ← PyDict.get phash_map fj;
        if decide (hamming hi hj ≤ threshold)
        then scan_candidates phash_map fi rest' (st.1 ++ [fj], {[fj]} ∪ st.2)
        else scan_candidates phash_map fi rest' st
  end.

(** STEP 3, the loop over [i]: [rest] is [files[i:]]. *)
Fixpoint visual_pass (phash_map : list (path * Z)) (rest : list path)
    (visited : gset path) (similar_groups : list (list path))
    : option (list (list path)) :=
  match rest with
  | [] => Some similar_groups
  | fi :: rest' =>
      if decide (fi ∈ visited)
      then visual_pass phash_map rest' visited similar_groups
      else
        '(group, visited') ←
          scan_candidates phash_map fi rest' ([fi], {[fi]} ∪ visited);
        visual_pass phash_map rest' visited'
          (if decide (1 < length group)%nat
           then similar_groups ++ [group] else similar_groups)
  end.

Definition similar_groups (phash_map : list (path * Z))
    : option (list (list path)) :=
  visual_pass phash_map (PyDict.keys phash_map) ∅ [].

(** STEP 4. *)
Definition exact_rows (exact : list (string * list path)) : list row :=
  hp ← exact;
  (λ file, {| type := "exact_duplicate"; group_id := hp.1;
              file_path := file |}) <$> hp.2.

Definition visual_group_id (idx : nat) : string :=
  "visual_group_" +:+ pretty idx.

Definition visual_rows (groups : list (list path)) : list row :=
  ig ← imap (λ idx group, (idx, group)) groups;
  (λ file, {| type := "visual_duplicate";
              group_id := visual_group_id ig.1;
              file_path := file |}) <$> ig.2.

(** The rows handed to [pd.DataFrame(rows).to_csv]; [None] when the
    clustering raises. *)
Definition analyze (image_files : list path) : option (list row) :=
  let '(exact_hash_map, phash_map) := hash_images image_files in
  groups ← similar_groups phash_map;
  Some (exact_rows (exact_duplicates exact_hash_map) ++ visual_rows groups).
End analysis.

(** ** A small concrete world

    A hasher that keeps the bytes it was fed, and a file system given by
    two tables; the examples below run the analysis on them. *)
Module Demo.
Definition plain_hasher : md5_hasher := {|
  md5_state := list Byte.byte;
  md5_new := [];
  md5_update := λ h chunk, h ++ chunk;
  md5_hexdigest := λ h, "md5:" +:+ String.string_of_list_byte h
|}.

Definition table_fs (contents : list (path * string))
    (phashes : list (path * Z)) : filesystem := {|
  fs_read := λ p, String.list_byte_of_string <$> PyDict.get contents p;
  fs_phash := PyDict.get phashes
|}.

(** Three images at distances d(A,B) = 3, d(B,C) = 3, d(A,C) = 6. *)
Definition chain_fs : filesystem :=
  table_fs [("A", "a"); ("B", "b"); ("C", "c")]
           [("A", 0); ("B", 7); ("C", 63)].

(** [a.jpg] and [b.jpg] are the same bytes, [c.jpg] looks like [a.jpg],
    [d.jpg] is unrelated, [e.txt.jpg] and [f.jpg] hold the same bytes that
    are not an image, [g.jpg] cannot be read. *)
Definition gallery_fs : filesystem :=
  table_fs [("a.jpg", "xx"); ("b.jpg", "xx"); ("c.jpg", "xy");
            ("d.jpg", "zz"); ("e.txt.jpg", "tt"); ("f.jpg", "tt")]
           [("a.jpg", 0); ("b.jpg", 0); ("c.jpg", 3);
            ("d.jpg", 18446744073709551615); ("g.jpg", 1)].

Definition gallery : list path :=
  ["a.jpg"; "b.jpg"; "c.jpg"; "d.jpg"; "e.txt.jpg"; "f.jpg"; "g.jpg"].

(** The same gallery after a file outside the scan has appeared. *)
Definition gallery_fs_later : filesystem :=
  table_fs [("a.jpg", "xx"); ("b.jpg", "xx"); ("c.jpg", "xy");
            ("d.jpg", "zz"); ("e.txt.jpg", "tt"); ("f.jpg", "tt");
            ("z.jpg", "xx")]
           [("a.jpg", 0); ("b.jpg", 0); ("c.jpg", 3);
            ("d.jpg", 18446744073709551615); ("g.jpg", 1); ("z.jpg", 0)].
End Demo.

(** ** Names for what the analysis computes on the way

    [exact_groups] is the dictionary [exact_duplicates] of a run and
    [visual_groups] its list [similar_groups]. *)
Definition exact_groups (hs : md5_hasher) (fs : filesystem)
    (image_files : list path) : list (string * list path) :=
  exact_duplicates (hash_images hs fs image_files).1.

Definition visual_groups (hs : md5_hasher) (fs : filesystem) (threshold : Z)
    (image_files : list path) : option (list (list path)) :=
  similar_groups threshold (hash_images hs fs image_files).2.

(** The files of a scan whose digest is [h], in scan order. *)
Definition digest_class (hs : md5_hasher) (fs : filesystem) (h : string)
    (image_files : list path) : list path :=
  filter (λ p, get_file_hash hs fs p default_chunk_size = Some h) image_files.

(** The files of a scan that have a perceptual signature, in scan order. *)
Definition decoded (fs : filesystem) (image_files : list path) : list path :=
  filter (λ p, is_Some (get_phash fs p)) image_files.

(** [fj] is within the threshold of [fi], both read from [phash_map]. *)
Definition within (phash_map : list (path * Z)) (threshold : Z)
    (fi fj : path) : Prop :=
  match PyDict.get phash_map fi, PyDict.get phash_map fj with
  | Some hi, Some hj => hamming hi hj ≤ threshold
  | _, _ => False
  end.

#[global] Instance within_dec phash_map threshold fi fj :
  Decision (within phash_map threshold fi fj).
Proof. unfold within. repeat case_match; apply _. Defined.

(** What the loop over [j] adds to the group seeded by [fi]. *)
Definition joiners (phash_map : list (path * Z)) (threshold : Z) (fi : path)
    (rest : list path) (visited : gset path) : list path :=
  filter (λ fj, (fj ∉ visited) ∧ within phash_map threshold fi fj) rest.

(** The groups the loop over [i] emits, as a function of the files left
    and of the visited set. *)
Fixpoint clusters (phash_map : list (path * Z)) (threshold : Z)
    (rest : list path) (visited : gset path) : list (list path) :=
  match rest with
  | [] => []
  | fi :: rest' =>
      if decide (fi ∈ visited) then clusters phash_map threshold rest' visited
      else
        let ms := joiners phash_map threshold fi rest' ({[fi]} ∪ visited) in
        let later :=
          clusters phash_map threshold rest'
            (list_to_set ms ∪ ({[fi]} ∪ visited)) in
        if decide (1 < length (fi :: ms))%nat then (fi :: ms) :: later
        else later
  end.

(** The streaming law of [hashlib]: feeding two chunks in turn is feeding
    their concatenation. *)
Definition streaming (hs : md5_hasher) : Prop :=
  ∀ h a b, md5_update hs (md5_update hs h a) b = md5_update hs h (a ++ b).

(** Chaining as connected components would have it: three distinct files
    of the scan, the middle one within the threshold of the two others,
    always share a visual group. *)
Definition single_linkage_chaining (hs : md5_hasher) (fs : filesystem)
    (threshold : Z) (image_files : list path) : Prop :=
  ∀ A B C sa sb sc,
    A ∈ image_files → B ∈ image_files → C ∈ image_files →
    A ≠ B → B ≠ C → A ≠ C →
    get_phash fs A = Some sa → get_phash fs B = Some sb →
    get_phash fs C = Some sc →
    hamming sa sb ≤ threshold → hamming sb sc ≤ threshold →
    ∃ gs g, visual_groups hs fs threshold image_files = Some gs ∧
            g ∈ gs ∧ A ∈ g ∧ B ∈ g ∧ C ∈ g.

(** ** Scanning a folder

    Python strings are sequences of code points; file names are taken with
    code points below 256, one per character. *)
Module PyStr.
Definition chars (s : string) : list Ascii.ascii :=
  String.list_ascii_of_string s.

(** [s.startswith(prefix)] and [s.endswith(suffix)]. *)
Definition startswith (s prefix : string) : bool :=
  bool_decide (chars prefix `prefix_of` chars s).

Definition endswith (s suffix : string) : bool :=
  bool_decide (chars suffix `suffix_of` chars s).

(** [s.endswith(suffixes)] for a tuple of suffixes. *)
Definition endswith_any (s : string) (suffixes : list string) : bool :=
  existsb (endswith s) suffixes.

(** [str.lower] on one code point below 256: the letters A to Z and the
    accented capitals of Latin-1 (all of U+00C0 to U+00DE but the
    multiplication sign) move up by 32. *)
Definition lower_char (c : Ascii.ascii) : Ascii.ascii :=
  let n := Ascii.N_of_ascii c in
  if ((65 <=? n) && (n <=? 90) ||
      (192 <=? n) && (n <=? 222) && negb (n =? 215))%N
  then Ascii.ascii_of_N (n + 32)
  else c.

Fixpoint lower (s : string) : string :=
  match s with
  | EmptyString => EmptyString
  | String c s' => String (lower_char c) (lower s')
  end.
End PyStr.

(** [posixpath.join] of two components, the [os.path.join] of the
    examples. *)
Definition posix_join (a b : string) : string :=
  if PyStr.startswith b "/" then b
  else if bool_decide (a = "") || PyStr.endswith a "/" then a +:+ b
  else a +:+ "/" +:+ b.

(** The extension tuples of the two programs. *)
Module Detector.
Definition IMAGE_EXTENSIONS : list string :=
  [".jpg"; ".jpeg"; ".png"; ".bmp"; ".gif"; ".tiff"; ".webp"].
End Detector.

Module Gallery.
Definition IMAGE_EXTENSIONS : list string :=
  [".jpg"; ".jpeg"; ".png"; ".heic"; ".bmp"; ".tiff"; ".webp"; ".gif"].
Definition VIDEO_EXTENSIONS : list string :=
  [".mp4"; ".mov"; ".avi"; ".mkv"; ".3gp"; ".wmv"; ".mts"].
End Gallery.

Section scanning.
(** [os.path.join], and the tuple [IMAGE_EXTENSIONS] of the module. *)
Variable join : string → string → string.
Variable extensions : list string.

(** [file.lower().endswith(IMAGE_EXTENSIONS)]. *)
Definition is_image (file : string) : bool :=
  PyStr.endswith_any (PyStr.lower file) extensions.

(** [scan_images]: [walk] is what [os.walk(folder)] yields, a triple
    [(root, dirs, files)] per directory. *)
Definition scan_images (walk : list (string * list string * list string))
    : list path :=
  entry ← walk;
  join entry.1.1 <$> filter (λ file, is_image file = true) entry.2.
End scanning.

(** [analyze(folder)], from the walk of the folder to the rows. *)
Definition analyze_folder (hs : md5_hasher) (fs : filesystem) (threshold : Z)
    (join : string → string → string) (extensions : list string)
    (walk : list (string * list string * list string)) : option (list row) :=
  analyze hs fs threshold (scan_images join extensions walk).

(** ** Cleaning the exact duplicates

    The disk as the clean-up sees it: the paths for which
    [os.path.exists] holds, and the paths on which [os.remove] raises. *)
Record disk := {
  present : gset path;
  locked : gset path
}.

(** How a clean-up ends: its early returns, the normal end with the
    counter [total_deleted], or an exception that leaves it. *)
Inductive outcome :=
  | NoReport
  | EmptyReport
  | Finished (total_deleted : nat)
  | Raised.

(** [exact_df.groupby("group_id")] on a frame whose cells are strings:
    one group per key, keys in increasing order, the rows of a group in
    the order of the frame. *)
Definition groupby_group_id (df : list row) : list (string * list row) :=
  (λ key, (key, filter (λ r, group_id r = key) df)) <$>
  merge_sort String.le (remove_dups (group_id <$> df)).

Section cleaning.
Variable DRY_RUN : bool.

(** The loop over [delete_files]. *)
Fixpoint delete_loop (delete_files : list path) (d : disk)
    (total_deleted : nat) : disk * option nat :=
  match delete_files with
  | [] => (d, Some total_deleted)
  | f :: delete_files' =>
      if decide (f ∈ present d) then
        if DRY_RUN then delete_loop delete_files' d total_deleted
        else if decide (f ∈ locked d) then (d, None)
        else delete_loop delete_files'
               {| present := present d ∖ {[f]}; locked := locked d |}
               (S total_deleted)
      else delete_loop delete_files' d total_deleted
  end.

(** The loop over the groups; [files[0]] raises on an empty group. *)
Fixpoint group_loop (grouped : list (string * list row)) (d : disk)
    (total_deleted : nat) : disk * option nat :=
  match grouped with
  | [] => (d, Some total_deleted)
  | (_, group) :: grouped' =>
      match file_path <$> group with
      | [] => (d, None)
      | keep_file :: delete_files =>
          match delete_loop delete_files d total_deleted with
          | (d', Some total_deleted') => group_loop grouped' d' total_deleted'
          | (d', None) => (d', None)
          end
      end
  end.

(** The body shared by the two programs, from the frame on. *)
Definition clean_frame (df : list row) (d : disk) : disk * outcome :=
  let exact_df := filter (λ r, type r = "exact_duplicate") df in
  let grouped := groupby_group_id exact_df in
  match group_loop grouped d 0 with
  | (d', Some total_deleted) => (d', Finished total_deleted)
  | (d', None) => (d', Raised)
  end.
End cleaning.

(** [clean_exact_duplicates] of the stand-alone script: [report] is the
    frame [pd.read_csv] returns, [None] when the file is missing and
    [read_csv] raises. *)
Definition clean_exact_duplicates_script (DRY_RUN : bool)
    (report : option (list row)) (d : disk) : disk * outcome :=
  match report with
  | None => (d, Raised)
  | Some df => clean_frame DRY_RUN df d
  end.

(** [clean_exact_duplicates] of the gallery program: it returns early
    when the report is missing or the frame is empty. *)
Definition clean_exact_duplicates (DRY_RUN : bool)
    (report : option (list row)) (d : disk) : disk * outcome :=
  match report with
  | None => (d, NoReport)
  | Some [] => (d, EmptyReport)
  | Some df => clean_frame DRY_RUN df d
  end.

(** The files a clean-up may delete: in every group of exact rows, all
    the files but the first. *)
Definition delete_candidates (df : list row) : list path :=
  mjoin ((λ g, tail (file_path <$> g.2)) <$>
         groupby_group_id (filter (λ r, type r = "exact_duplicate") df)).

(** ** Reviewing and moving

    [get_largest_file]: [max(files, key=os.path.getsize)] keeps the first
    file whose size no later file exceeds; [getsize] is [None] when
    [os.path.getsize] raises, and [max] raises on an empty list. *)
Section largest.
Variable getsize : path → option nat.

Fixpoint max_by_size (best : path) (best_size : nat) (files : list path)
    : option path :=
  match files with
  | [] => Some best
  | f :: files' =>
      size ← getsize f;
      if decide (best_size < size)%nat then max_by_size f size files'
      else max_by_size best best_size files'
  end.

Definition get_largest_file (files : list path) : option path :=
  match files with
  | [] => None
  | f :: files' => size ← getsize f; max_by_size f size files'
  end.
End largest.

(** The loop of [move_to_folder] and [move_to_sorted_folder] that looks
    for a free destination: [name] and [ext] are what
    [os.path.splitext(filename)] returns, the first [destination] is
    [join target_folder filename] and the first [counter] is 1. *)
Definition numbered (name ext : string) (counter : nat) : string :=
  name +:+ "_" +:+ pretty counter +:+ ext.

Fixpoint free_destination (fuel : nat) (join : string → string → string)
    (exists_ : gset path) (target_folder name ext : string)
    (destination : path) (counter : nat) : option path :=
  match fuel with
  | O => None
  | S fuel' =>
      if decide (destination ∈ exists_)
      then free_destination fuel' join exists_ target_folder name ext
             (join target_folder (numbered name ext counter)) (S counter)
      else Some destination
  end.

(** The test of [move_to_folder] for a file that is already sorted, and
    the test of [sort_all_media] for a directory to skip; the arguments
    are the absolute paths [os.path.abspath] returns. *)
Definition already_sorted (abs_path abs_base sep : string) : bool :=
  PyStr.startswith abs_path (abs_base +:+ sep) || bool_decide (abs_path = abs_base).

Definition skipped_root (root_abs output_sorted_abs : string) : bool :=
  PyStr.startswith root_abs output_sorted_abs.

(** The branches of [sort_all_media] on a file name: an image, else a
    video, else nothing. *)
Inductive media := Image | Video.

Definition classify (file : string) : option media :=
  let lower_file := PyStr.lower file in
  if PyStr.endswith_any lower_file Gallery.IMAGE_EXTENSIONS then Some Image
  else if PyStr.endswith_any lower_file Gallery.VIDEO_EXTENSIONS then Some Video
  else None.

(** ** The decision on a reviewed group

    What the window of [review_visual_duplicates] hands back, and the
    calls the block after it makes on the files of the group.  The lists
    are the calls in the order the code makes them, when none of them
    raises; [None] is an exception of the block itself ([max] on sizes
    that cannot be read, an index out of range). *)
Inductive action :=
  | delete_all
  | skip
  | keep_best
  | keep_index (value : nat)
  | keep_selected
  | delete_selected.

Inductive call :=
  | send2trash (f : path)
  | move_to_folder (f : path).

Definition call_path (c : call) : path :=
  match c with send2trash f | move_to_folder f => f end.

(** [enumerate(files)]. *)
Definition enumerate (files : list path) : list (nat * path) := imap pair files.

Section reviewing.
Variable getsize : path → option nat.

(** The gallery program: six actions, and the other files of a group go
    to the trash whatever [move_to_folder] returned. *)
Definition review_action (selected_indices : gset nat) (files : list path)
    (a : action) : option (list call) :=
  match a with
  | delete_all => Some (send2trash <$> files)
  | skip => Some (move_to_folder <$> files)
  | keep_best =>
      keep_file ← get_largest_file getsize files;
      Some (move_to_folder keep_file ::
            (send2trash <$> filter (λ f, f ≠ keep_file) files))
  | keep_index value =>
      keep_file ← files !! value;
      Some (move_to_folder keep_file ::
            (send2trash <$> (filter (λ p, p.1 ≠ value) (enumerate files)).*2))
  | keep_selected =>
      Some ((λ p, if decide (p.1 ∈ selected_indices)
                  then move_to_folder p.2 else send2trash p.2)
            <$> enumerate files)
  | delete_selected =>
      Some ((λ p, if decide (p.1 ∈ selected_indices)
                  then send2trash p.2 else move_to_folder p.2)
            <$> enumerate files)
  end.

(** The standalone tool: four branches, and the other files go to the
    trash only if [move_to_folder] returned [True] for the kept one;
    [moved] is what that call returns. *)
Definition review_action_standalone (moved : path → bool) (files : list path)
    (a : action) : option (list call) :=
  match a with
  | delete_all => Some (send2trash <$> files)
  | skip => Some (move_to_folder <$> files)
  | keep_best =>
      keep_file ← get_largest_file getsize files;
      Some (move_to_folder keep_file ::
            if moved keep_file
            then send2trash <$> filter (λ f, f ≠ keep_file) files
            else [])
  | keep_index value =>
      keep_file ← files !! value;
      Some (move_to_folder keep_file ::
            if moved keep_file
            then send2trash <$> (filter (λ p, p.1 ≠ value) (enumerate files)).*2
            else [])
  | keep_selected | delete_selected => Some []
  end.

(** One turn of the loop over the groups: the files of the group that
    still exist, nothing for fewer than two of them or for a window that
    was closed without a choice. *)
Definition review_group (exists_ : gset path) (selected_indices : gset nat)
    (group_files : list path) (choice : option action) : option (list call) :=
  let files := filter (λ f, f ∈ exists_) group_files in
  if decide (length files < 2)%nat then Some []
  else match choice with
       | None => Some []
       | Some a => review_action selected_indices files a
       end.
End reviewing.

(** The groups the review loops over:
    [df[df["type"]=="visual_duplicate"].groupby("group_id")], each with
    its [file_path] column as a list. *)
Definition review_groups (df : list row) : list (string * list path) :=
  (λ g : string * list row, (g.1, file_path <$> g.2)) <$>
  groupby_group_id (filter (λ r, type r = "visual_duplicate") df).

(** A folder with one sub-folder, as [os.walk] lists it. *)
Module DemoScan.
Definition walk : list (string * list string * list string) :=
  [("/p", ["sub"], ["a.jpg"; "B.PNG"; "notes.txt"; "c.heic"]);
   ("/p/sub", [], ["a.jpg"; "d.Jpeg"])].

(** [/p/sub/a.jpg] is a copy of [/p/a.jpg], and [/p/B.PNG] looks like
    them. *)
Definition fs : filesystem :=
  Demo.table_fs [("/p/a.jpg", "xx"); ("/p/sub/a.jpg", "xx"); ("/p/B.PNG", "yy")]
                [("/p/a.jpg", 0); ("/p/sub/a.jpg", 0); ("/p/B.PNG", 1)].
End DemoScan.

(** The gallery of the examples on disk, with nothing locked, and the
    report of its analysis. *)
Module DemoClean.
Definition disk0 : disk :=
  {| present := list_to_set Demo.gallery; locked := ∅ |}.

Definition report : list row :=
  [ {| type := "exact_duplicate"; group_id := "md5:xx"; file_path := "a.jpg" |};
    {| type := "exact_duplicate"; group_id := "md5:xx"; file_path := "b.jpg" |};
    {| type := "exact_duplicate"; group_id := "md5:tt";
       file_path := "e.txt.jpg" |};
    {| type := "exact_duplicate"; group_id := "md5:tt"; file_path := "f.jpg" |};
    {| type := "visual_duplicate"; group_id := "visual_group_0";
       file_path := "a.jpg" |};
    {| type := "visual_duplicate"; group_id := "visual_group_0";
       file_path := "b.jpg" |};
    {| type := "visual_duplicate"; group_id := "visual_group_0";
       file_path := "c.jpg" |};
    {| type := "visual_duplicate"; group_id := "visual_group_0";
       file_path := "g.jpg" |} ].

(** The disk after the clean-up: [b.jpg] and [f.jpg] are gone. *)
Definition disk1 : disk :=
  {| present := list_to_set ["a.jpg"; "c.jpg"; "d.jpg"; "e.txt.jpg"; "g.jpg"];
     locked := ∅ |}.
End DemoClean.

(** A month folder that already holds [a.jpg] and [a_1.jpg]. *)
Module DemoMove.
Definition taken : gset path :=
  list_to_set ["/out/2020/01/a.jpg"; "/out/2020/01/a_1.jpg"].
End DemoMove.

(** A group of three files on disk, the second one the largest. *)
Module DemoReview.
Definition files : list path := ["a.jpg"; "b.jpg"; "c.jpg"].

Definition getsize (f : path) : option nat :=
  if decide (f = "a.jpg") then Some 10%nat
  else if decide (f = "b.jpg") then Some 30%nat
  else if decide (f = "c.jpg") then Some 30%nat
  else None.

Definition on_disk : gset path := list_to_set ["a.jpg"; "b.jpg"; "c.jpg"].
End DemoReview.

(** Membership in a list that is written out. *)
Ltac in_list :=
  repeat first [apply list_elem_of_here | apply list_elem_of_further].

Ltac by_cases_in H :=
  repeat (apply elem_of_cons in H as [?|H]); [..|by apply elem_of_nil in H];
  try discriminate; subst.

(** ** Facts on dictionaries *)
Section dict_facts.
Context {K V : Type} `{EqDecision K}.
Implicit Types (d : list (K * V)) (k : K) (v : V) (f : option V → V).

Lemma get_upsert_eq f k d :
  PyDict.get (PyDict.upsert f k d) k = Some (f (PyDict.get d k)).
Proof.
  induction d as [|[k' v'] d IH]; simpl.
  - by rewrite decide_True.
  - destruct (decide (k = k')) as [->|Hne]; simpl.
    + by rewrite decide_True.
    + by rewrite decide_False.
Qed.

Lemma get_upsert_ne f k k' d :
  k ≠ k' → PyDict.get (PyDict.upsert f k d) k' = PyDict.get d k'.
Proof.
  intros Hne. induction d as [|[k0 v0] d IH]; simpl.
  - by rewrite decide_False.
  - destruct (decide (k = k0)) as [->|Hk]; simpl.
    + by rewrite !decide_False.
    + by rewrite IH.
Qed.

Lemma get_None d k : PyDict.get d k = None ↔ k ∉ PyDict.keys d.
Proof.
  unfold PyDict.keys. induction d as [|[k' v'] d IH]; simpl.
  - split; [intros _; apply not_elem_of_nil | done].
  - rewrite not_elem_of_cons. destruct (decide (k = k')); naive_solver.
Qed.

Lemma get_Some_keys d k v : PyDict.get d k = Some v → k ∈ PyDict.keys d.
Proof.
  intros Hg. destruct (decide (k ∈ PyDict.keys d)) as [|Hn]; [done|].
  apply get_None in Hn. congruence.
Qed.

Lemma keys_get d k : k ∈ PyDict.keys d → is_Some (PyDict.get d k).
Proof.
  intros Hk. destruct (PyDict.get d k) eqn:E; [by eexists|].
  by apply get_None in E.
Qed.

Lemma keys_upsert f k d :
  PyDict.keys (PyDict.upsert f k d) =
  if decide (k ∈ PyDict.keys d) then PyDict.keys d else PyDict.keys d ++ [k].
Proof.
  unfold PyDict.keys. induction d as [|[k' v'] d IH]; [done|].
  cbn [PyDict.upsert]. destruct (decide (k = k')) as [->|Hne]; csimpl.
  - rewrite decide_True; [done | by left].
  - rewrite IH. destruct (decide (k ∈ d.*1)) as [Hin|Hin].
    + rewrite decide_True; [done | by right].
    + rewrite decide_False; [done | by apply not_elem_of_cons].
Qed.

Lemma NoDup_keys_upsert f k d :
  NoDup (PyDict.keys d) → NoDup (PyDict.keys (PyDict.upsert f k d)).
Proof.
  intros Hd. rewrite keys_upsert. case_decide; [done|].
  apply NoDup_app. split_and!; [done | | apply NoDup_singleton].
  intros x Hx ->%list_elem_of_singleton. done.
Qed.

Lemma elem_of_get d k v :
  NoDup (PyDict.keys d) → (k, v) ∈ d ↔ PyDict.get d k = Some v.
Proof.
  unfold PyDict.keys. induction d as [|[k' v'] d IH]; simpl; intros Hd.
  - split; [by intros ?%elem_of_nil | done].
  - apply NoDup_cons in Hd as [Hk Hd]. rewrite elem_of_cons, IH by done.
    destruct (decide (k = k')) as [->|Hne].
    + split; [intros [[= ->]|Hg]; [done|] | intros [= ->]; by left].
      apply get_Some_keys in Hg. done.
    + naive_solver.
Qed.
End dict_facts.

(** ** STEP 1: what the two dictionaries hold after the hashing loop *)
Section hashing_facts.
Context (hs : md5_hasher) (fs : filesystem).
Implicit Types (files : list path) (p : path) (h : string).

Lemma hash_images_snoc files p :
  hash_images hs fs (files ++ [p]) =
  hash_image hs fs (hash_images hs fs files) p.
Proof. unfold hash_images. by rewrite foldl_app. Qed.

Lemma digest_class_snoc h files p :
  digest_class hs fs h (files ++ [p]) =
  digest_class hs fs h files ++
  (if decide (get_file_hash hs fs p default_chunk_size = Some h)
   then [p] else []).
Proof.
  unfold digest_class. by rewrite filter_app.
Qed.

Lemma exact_hash_map_NoDup files :
  NoDup (PyDict.keys (hash_images hs fs files).1).
Proof.
  induction files as [|p files IH] using rev_ind; [apply NoDup_nil_2|].
  rewrite hash_images_snoc. destruct (hash_images hs fs files) as [em pm].
  simpl in *.
  destruct (get_file_hash hs fs p default_chunk_size) as [h|]; [|done].
  destruct (truthy h); [|done]. by apply NoDup_keys_upsert.
Qed.

Lemma exact_hash_map_get files h :
  PyDict.get (hash_images hs fs files).1 h =
  if decide (h = "") then None
  else match digest_class hs fs h files with [] => None | l => Some l end.
Proof.
  induction files as [|p files IH] using rev_ind.
  { simpl. by case_decide. }
  rewrite hash_images_snoc, digest_class_snoc.
  destruct (hash_images hs fs files) as [em pm]. simpl in *.
  destruct (get_file_hash hs fs p default_chunk_size) as [h'|] eqn:Eh; simpl.
  - unfold truthy. case_bool_decide as Hh'; simpl.
    + destruct (decide (h' = h)) as [->|Hne].
      * unfold PyDict.append. rewrite get_upsert_eq, IH.
        rewrite !decide_False by done. rewrite decide_True by done.
        destruct (digest_class hs fs h files); done.
      * unfold PyDict.append. rewrite get_upsert_ne, IH by done.
        rewrite (decide_False (P := Some h' = Some h)) by congruence.
        by rewrite app_nil_r.
    + subst h'. rewrite IH. case_decide; [done|].
      rewrite (decide_False (P := Some "" = Some h)) by congruence.
      by rewrite app_nil_r.
  - by rewrite IH, app_nil_r.
Qed.

(** The entries of [exact_hash_map] are the non-empty digest classes. *)
Lemma exact_hash_map_entry files h paths :
  (h, paths) ∈ (hash_images hs fs files).1 ↔
  h ≠ "" ∧ paths ≠ [] ∧ paths = digest_class hs fs h files.
Proof.
  rewrite elem_of_get by apply exact_hash_map_NoDup.
  rewrite exact_hash_map_get. case_decide as Hh; [naive_solver|].
  destruct (digest_class hs fs h files) eqn:E; naive_solver.
Qed.

Lemma phash_map_NoDup files :
  NoDup (PyDict.keys (hash_images hs fs files).2).
Proof.
  induction files as [|p files IH] using rev_ind; [apply NoDup_nil_2|].
  rewrite hash_images_snoc. destruct (hash_images hs fs files) as [em pm].
  simpl in *. destruct (get_phash fs p); simpl; [|done].
  by apply NoDup_keys_upsert.
Qed.

Lemma phash_map_get files p :
  PyDict.get (hash_images hs fs files).2 p =
  if decide (p ∈ files) then get_phash fs p else None.
Proof.
  induction files as [|q files IH] using rev_ind.
  { destruct (decide (p ∈ [])) as [?%elem_of_nil|]; done. }
  rewrite hash_images_snoc. destruct (hash_images hs fs files) as [em pm].
  simpl in *. destruct (decide (q = p)) as [->|Hne].
  - rewrite (decide_True (P := p ∈ files ++ [p])) by set_solver.
    destruct (get_phash fs p) as [s|] eqn:Es; simpl.
    + unfold PyDict.set. by rewrite get_upsert_eq.
    + rewrite IH. by case_decide.
  - assert (PyDict.get
      (match get_phash fs q with
       | Some s => PyDict.set q s pm | None => pm end) p
      = PyDict.get pm p) as ->.
    { destruct (get_phash fs q); [|done].
      unfold PyDict.set. by rewrite get_upsert_ne. }
    rewrite IH. destruct (decide (p ∈ files)).
    + rewrite decide_True; [done | set_solver].
    + rewrite decide_False; [done | set_solver].
Qed.

(** The keys of [phash_map] are the decoded files of the scan. *)
Lemma phash_map_key files p :
  p ∈ PyDict.keys (hash_images hs fs files).2 ↔ p ∈ decoded fs files.
Proof.
  unfold decoded. rewrite list_elem_of_filter. split.
  - intros [s Hs]%keys_get. rewrite phash_map_get in Hs.
    case_decide; [|done]. by rewrite Hs.
  - intros [[s Hs] Hin]. apply (get_Some_keys _ _ s).
    rewrite phash_map_get. by rewrite decide_True.
Qed.

(** They keep the order of the scan. *)
Lemma phash_map_keys_sublist files :
  PyDict.keys (hash_images hs fs files).2 `sublist_of` files.
Proof.
  induction files as [|p files IH] using rev_ind; [done|].
  rewrite hash_images_snoc. destruct (hash_images hs fs files) as [em pm].
  simpl in *. destruct (get_phash fs p); simpl.
  - unfold PyDict.set. rewrite keys_upsert. case_decide.
    + by apply sublist_inserts_r.
    + by apply sublist_app.
  - by apply sublist_inserts_r.
Qed.

Lemma phash_map_keys files :
  NoDup files → PyDict.keys (hash_images hs fs files).2 = decoded fs files.
Proof.
  unfold decoded. induction files as [|p files IH] using rev_ind; [done|].
  intros [Hf [Hp _]]%NoDup_app. rewrite hash_images_snoc, filter_app.
  destruct (hash_images hs fs files) as [em pm]. simpl in *.
  rewrite filter_cons, filter_nil.
  destruct (get_phash fs p) as [s|] eqn:Es; simpl.
  - unfold PyDict.set. rewrite keys_upsert, IH by done.
    rewrite decide_False; [done|].
    rewrite list_elem_of_filter. intros [_ Hin]. apply (Hp p); [done|].
    by apply list_elem_of_singleton.
  - rewrite app_nil_r. by apply IH.
Qed.
End hashing_facts.

(** ** Hamming distance *)
Section hamming_facts.
Implicit Types a b z : Z.

Lemma filter_none {A} (P : A → Prop) `{∀ x, Decision (P x)} (l : list A) :
  (∀ x, x ∈ l → ¬ P x) → filter P l = [].
Proof.
  induction l as [|x l IH]; [done|]. intros Hl.
  rewrite filter_cons_False by (apply Hl; by left).
  apply IH. intros y Hy. apply Hl. by right.
Qed.

Lemma count_nonzero_le z : (count_nonzero z ≤ phash_bits)%nat.
Proof.
  unfold count_nonzero.
  etrans; [apply length_filter|]. by rewrite length_seq.
Qed.

Lemma hamming_nonneg a b : 0 ≤ hamming a b.
Proof. unfold hamming. lia. Qed.

Lemma hamming_le_64 a b : hamming a b ≤ 64.
Proof.
  unfold hamming. pose proof (count_nonzero_le (Z.lxor a b)) as Hle.
  unfold phash_bits in Hle. lia.
Qed.

Lemma hamming_comm a b : hamming a b = hamming b a.
Proof. unfold hamming. by rewrite Z.lxor_comm. Qed.

Lemma hamming_self a : hamming a a = 0.
Proof.
  unfold hamming, count_nonzero. rewrite Z.lxor_nilpotent.
  rewrite filter_none; [done|]. intros i _. by rewrite Z.bits_0.
Qed.

Lemma count_nonzero_0 z i :
  count_nonzero z = 0%nat → (i < phash_bits)%nat →
  Z.testbit z (Z.of_nat i) = false.
Proof.
  unfold count_nonzero. intros Hc%length_zero_iff_nil Hi.
  destruct (Z.testbit z (Z.of_nat i)) eqn:Hbit; [|done].
  exfalso. eapply (filter_nil_not_elem_of _ _ i Hc); [done|].
  apply elem_of_seq. lia.
Qed.

Lemma wf_phash_high_bits a n : wf_phash a → 64 ≤ n → Z.testbit a n = false.
Proof.
  intros [H0 H1] Hn. destruct (decide (a = 0)) as [->|Hne].
  - apply Z.bits_0.
  - apply Z.bits_above_log2; [done|].
    assert (Z.log2 a < 64); [|lia].
    apply Z.log2_lt_pow2; lia.
Qed.

(** Two 64-bit signatures at distance 0 are the same signature. *)
Lemma hamming_0_eq a b : wf_phash a → wf_phash b → hamming a b ≤ 0 → a = b.
Proof.
  intros Ha Hb Hd. unfold hamming in Hd.
  assert (count_nonzero (Z.lxor a b) = 0%nat) as Hc by lia.
  apply Z.bits_inj'. intros n Hn.
  destruct (decide (n < 64)) as [Hlt|Hge].
  - pose proof (count_nonzero_0 _ (Z.to_nat n) Hc) as Hbit.
    rewrite Z2Nat.id in Hbit by done. rewrite Z.lxor_spec in Hbit.
    unfold phash_bits in Hbit.
    destruct (Z.testbit a n), (Z.testbit b n); simpl in Hbit;
      try done; discriminate Hbit; lia.
  - rewrite !wf_phash_high_bits by (done || lia). done.
Qed.
End hamming_facts.

(** ** STEP 3: the loops compute [clusters] *)
Section visual_facts.
Context (pm : list (path * Z)) (t : Z).
Implicit Types (rest g ms : list path) (visited : gset path) (fi fj x : path).

Lemma joiners_cons_visited fi fj rest visited :
  fj ∈ visited → joiners pm t fi (fj :: rest) visited = joiners pm t fi rest visited.
Proof. intros Hv. unfold joiners. rewrite filter_cons_False; tauto. Qed.

Lemma joiners_cons_far fi fj rest visited :
  ¬ within pm t fi fj →
  joiners pm t fi (fj :: rest) visited = joiners pm t fi rest visited.
Proof. intros Hw. unfold joiners. rewrite filter_cons_False; tauto. Qed.

Lemma joiners_cons_near fi fj rest visited :
  fj ∉ visited → within pm t fi fj →
  joiners pm t fi (fj :: rest) visited = fj :: joiners pm t fi rest visited.
Proof. intros Hv Hw. unfold joiners. by rewrite filter_cons_True. Qed.

Lemma joiners_insert_fresh fi fj rest visited :
  fj ∉ rest →
  joiners pm t fi rest ({[fj]} ∪ visited) = joiners pm t fi rest visited.
Proof.
  intros Hfj. unfold joiners. induction rest as [|x rest IH]; [done|].
  apply not_elem_of_cons in Hfj as [Hne Hfj]. rewrite !filter_cons, IH by done.
  destruct (decide (x ∈ visited)).
  - rewrite !decide_False; [done | tauto | set_solver].
  - destruct (decide (within pm t fi x)).
    + rewrite !decide_True; [done | tauto | set_solver].
    + rewrite !decide_False; [done | tauto | tauto].
Qed.

Lemma elem_of_joiners fi rest visited x :
  x ∈ joiners pm t fi rest visited ↔
  x ∈ rest ∧ (x ∉ visited) ∧ within pm t fi x.
Proof. unfold joiners. rewrite list_elem_of_filter. tauto. Qed.

Lemma joiners_sublist fi rest visited :
  joiners pm t fi rest visited `sublist_of` rest.
Proof. apply sublist_filter. Qed.

(** The loop over [j] never fails on keys of [phash_map] and appends the
    joiners of the seed. *)
Lemma scan_candidates_joiners fi rest g visited :
  NoDup rest → fi ∈ PyDict.keys pm → (∀ x, x ∈ rest → x ∈ PyDict.keys pm) →
  scan_candidates t pm fi rest (g, visited) =
  Some (g ++ joiners pm t fi rest visited,
        list_to_set (joiners pm t fi rest visited) ∪ visited).
Proof.
  intros Hnd [hi Hhi]%keys_get. revert g visited.
  induction rest as [|fj rest IH]; intros g visited Hkeys.
  { simpl. f_equal. f_equal; [by rewrite app_nil_r | set_solver]. }
  apply NoDup_cons in Hnd as [Hfj Hnd].
  assert (∀ x, x ∈ rest → x ∈ PyDict.keys pm) as Hkeys'.
  { intros x Hx. apply Hkeys. by right. }
  destruct (keys_get pm fj) as [hj Hhj]; [apply Hkeys; by left|].
  cbn [scan_candidates fst snd]. destruct (decide (fj ∈ visited)) as [Hv|Hv].
  - rewrite IH by done. by rewrite joiners_cons_visited.
  - rewrite Hhi, Hhj. simpl.
    destruct (decide (hamming hi hj ≤ t)) as [Hd|Hd].
    + rewrite IH by done. rewrite joiners_insert_fresh by done.
      rewrite joiners_cons_near; [| done | unfold within; by rewrite Hhi, Hhj].
      f_equal. f_equal; [by rewrite <-app_assoc | set_solver].
    + rewrite IH by done.
      rewrite joiners_cons_far; [done | unfold within; by rewrite Hhi, Hhj].
Qed.

Lemma visual_pass_clusters rest visited acc :
  NoDup rest → (∀ x, x ∈ rest → x ∈ PyDict.keys pm) →
  visual_pass t pm rest visited acc = Some (acc ++ clusters pm t rest visited).
Proof.
  intros Hnd. revert visited acc.
  induction rest as [|fi rest IH]; intros visited acc Hkeys.
  { simpl. by rewrite app_nil_r. }
  apply NoDup_cons in Hnd as [Hfi Hnd].
  assert (∀ x, x ∈ rest → x ∈ PyDict.keys pm) as Hkeys'.
  { intros x Hx. apply Hkeys. by right. }
  cbn [visual_pass clusters]. destruct (decide (fi ∈ visited)); [by apply IH|].
  rewrite scan_candidates_joiners; [| done | apply Hkeys; by left | done].
  cbn [mbind option_bind]. rewrite IH by done.
  change ([fi] ++ ?l) with (fi :: l).
  destruct (decide (1 < length (fi :: _))%nat); [|done].
  by rewrite <-app_assoc.
Qed.

Lemma similar_groups_clusters :
  NoDup (PyDict.keys pm) →
  similar_groups t pm = Some (clusters pm t (PyDict.keys pm) ∅).
Proof.
  intros Hnd. unfold similar_groups. by rewrite visual_pass_clusters.
Qed.
End visual_facts.

(** ** Shape of the groups *)
Section cluster_facts.
Context (pm : list (path * Z)) (t : Z).
Implicit Types (rest g ms : list path) (visited : gset path) (fi x : path).

(** A group is its seed followed by at least one joiner, in scan order;
    nothing in it was visited before. *)
Lemma clusters_group rest visited g :
  g ∈ clusters pm t rest visited →
  ∃ fi ms, g = fi :: ms ∧ ms ≠ [] ∧ (fi ∉ visited) ∧ g `sublist_of` rest ∧
           ∀ x, x ∈ ms → (x ∉ visited) ∧ within pm t fi x.
Proof.
  revert visited. induction rest as [|fi rest IH]; intros visited Hg.
  { by apply elem_of_nil in Hg. }
  cbn [clusters] in Hg. destruct (decide (fi ∈ visited)) as [Hv|Hv].
  - destruct (IH _ Hg) as (s & ms & -> & ? & ? & ? & ?).
    exists s, ms. split_and!; try done. by apply sublist_cons.
  - set (ms := joiners pm t fi rest ({[fi]} ∪ visited)) in *.
    assert (g = fi :: ms ∧ (1 < length (fi :: ms))%nat ∨
            g ∈ clusters pm t rest (list_to_set ms ∪ ({[fi]} ∪ visited)))
      as [[-> Hlen]|Hlater].
    { destruct (decide (1 < length (fi :: ms))%nat); [|by right].
      apply elem_of_cons in Hg as [->|Hg]; [by left | by right]. }
    + exists fi, ms. split_and!; try done.
      * intros ->. simpl in Hlen. lia.
      * apply sublist_skip, joiners_sublist.
      * intros x (_ & Hx & Hw)%elem_of_joiners. split; [set_solver | done].
    + destruct (IH _ Hlater) as (s & ms' & -> & ? & ? & ? & Hms).
      exists s, ms'. split_and!; try done.
      * set_solver.
      * by apply sublist_cons.
      * intros x Hx. destruct (Hms x Hx). split; [set_solver | done].
Qed.

Lemma clusters_elem rest visited g x :
  g ∈ clusters pm t rest visited → x ∈ g → x ∈ rest ∧ x ∉ visited.
Proof.
  intros Hg Hx.
  destruct (clusters_group _ _ _ Hg) as (s & ms & -> & _ & Hs & Hsub & Hms).
  split; [by eapply elem_of_sublist|].
  apply elem_of_cons in Hx as [->|Hx]; [done|]. by apply Hms.
Qed.

(** No file is in two groups, nor twice in one. *)
Lemma clusters_NoDup rest visited :
  NoDup rest → NoDup (mjoin (clusters pm t rest visited)).
Proof.
  intros Hnd. revert visited.
  induction rest as [|fi rest IH]; intros visited; [apply NoDup_nil_2|].
  apply NoDup_cons in Hnd as [Hfi Hnd]. cbn [clusters].
  destruct (decide (fi ∈ visited)); [by apply IH|].
  set (ms := joiners pm t fi rest ({[fi]} ∪ visited)).
  destruct (decide (1 < length (fi :: ms))%nat); [|by apply IH].
  cbn [mjoin list_join]. apply NoDup_app. split_and!; [| | by apply IH].
  - apply NoDup_cons. split.
    + intros Hin. apply Hfi. eapply elem_of_sublist; [done | apply joiners_sublist].
    + eapply sublist_NoDup; [done | apply joiners_sublist].
  - intros x Hx (g & Hxg & Hg)%list_elem_of_join.
    destruct (clusters_elem _ _ _ _ Hg Hxg) as [_ Hnv].
    apply Hnv. apply elem_of_cons in Hx as [->|Hx]; set_solver.
Qed.

Lemma clusters_all_visited rest visited :
  (∀ x, x ∈ rest → x ∈ visited) → clusters pm t rest visited = [].
Proof.
  induction rest as [|fi rest IH]; intros Hall; [done|].
  cbn [clusters]. rewrite decide_True by (apply Hall; by left).
  apply IH. intros x Hx. apply Hall. by right.
Qed.

(** When every file is within the threshold of the first one, the pass
    emits the whole list as its only group. *)
Lemma clusters_all_near fi rest :
  NoDup (fi :: rest) → rest ≠ [] → (∀ x, x ∈ rest → within pm t fi x) →
  clusters pm t (fi :: rest) ∅ = [fi :: rest].
Proof.
  intros [Hfi Hnd]%NoDup_cons Hne Hnear. cbn [clusters].
  rewrite decide_False by set_solver.
  assert (joiners pm t fi rest ({[fi]} ∪ ∅) = rest) as ->.
  { unfold joiners. clear Hne Hnd. induction rest as [|x rest IH]; [done|].
    apply not_elem_of_cons in Hfi as [Hx Hfi].
    rewrite filter_cons_True, IH; [done | done | | ].
    - intros y Hy. apply Hnear. by right.
    - split; [set_solver | apply Hnear; by left]. }
  rewrite decide_True by (destruct rest; [done | simpl; lia]).
  rewrite clusters_all_visited; [done|]. set_solver.
Qed.

(** A seed takes every later file within the threshold that no earlier
    group has taken. *)
Lemma clusters_seed_absorbs rest visited n b ms l1 l2 x :
  NoDup rest → clusters pm t rest visited !! n = Some (b :: ms) →
  rest = l1 ++ b :: l2 → x ∈ l2 → x ∉ visited → within pm t b x →
  x ∈ ms ∨ ∃ m g, (m < n)%nat ∧ clusters pm t rest visited !! m = Some g ∧ x ∈ g.
Proof.
  intros Hnd. revert visited n l1.
  induction rest as [|fi rest IH]; intros visited n l1 Hn Hrest Hx Hxv Hw.
  { by destruct l1. }
  apply NoDup_cons in Hnd as [Hfi Hnd]. cbn [clusters] in *.
  assert (∀ v k, clusters pm t rest v !! k = Some (b :: ms) →
                 ∃ l1', l1 = fi :: l1' ∧ rest = l1' ++ b :: l2) as Hlater.
  { intros v k Hk. apply list_elem_of_lookup_2 in Hk.
    destruct (clusters_elem _ _ _ b Hk) as [Hb _]; [by left|].
    destruct l1 as [|y l1']; simplify_eq/=; [done|]. by exists l1'. }
  destruct (decide (fi ∈ visited)) as [Hv|Hv].
  { destruct (Hlater _ _ Hn) as (l1' & -> & ->). by eapply IH. }
  set (ms0 := joiners pm t fi rest ({[fi]} ∪ visited)) in *.
  assert (x ∈ rest) as Hxr.
  { destruct l1; simplify_eq/=; [done|]. set_solver. }
  assert (x ≠ fi) as Hxfi by (by intros ->).
  destruct (decide (1 < length (fi :: ms0))%nat) as [Hlen|Hlen].
  - destruct n as [|n]; simplify_eq/=.
    + left. apply elem_of_joiners. split_and!; [done | set_solver | done].
    + destruct (decide (x ∈ ms0)) as [Hin|Hin].
      { right. exists 0%nat, (fi :: ms0). split_and!; [lia | done | by right]. }
      destruct (Hlater _ _ Hn) as (l1' & -> & Hr).
      destruct (IH Hnd _ _ _ Hn Hr Hx) as [?|(m & g & ? & ? & ?)];
        [set_solver | done | by left |].
      right. exists (S m), g. split_and!; [lia | done | done].
  - destruct (Hlater _ _ Hn) as (l1' & -> & Hr).
    destruct (IH Hnd _ _ _ Hn Hr Hx) as [?|(m & g & ? & ? & ?)];
      [| done | by left |].
    + assert (ms0 = []) as ->; [|set_solver].
      destruct ms0; [done | simpl in Hlen; lia].
    + right. by exists m, g.
Qed.
End cluster_facts.

(** ** The content fingerprinter *)
Section fingerprint_facts.
Context (hs : md5_hasher) (fs : filesystem).
Implicit Types (data : list Byte.byte) (p q : path).

(** The fuel given by [get_file_hash] lets the loop reach the end of the
    file: any larger amount gives the same state. *)
Lemma read_chunks_enough fuel1 fuel2 chunk_size data hasher :
  (0 < chunk_size)%nat → (length data < fuel1)%nat → (length data < fuel2)%nat →
  read_chunks hs fuel1 chunk_size data hasher =
  read_chunks hs fuel2 chunk_size data hasher.
Proof.
  intros Hcs. revert fuel2 data hasher.
  induction fuel1 as [|fuel1 IH]; intros fuel2 data hasher H1 H2; [lia|].
  destruct fuel2 as [|fuel2]; [lia|]. cbn [read_chunks].
  destruct (take chunk_size data) as [|b chunk] eqn:Et; [done|].
  assert (length (drop chunk_size data) < length data)%nat.
  { rewrite length_drop. destruct data; [by rewrite take_nil in Et | simpl; lia]. }
  apply IH; lia.
Qed.

(** With a streaming hasher the loop feeds exactly the content. *)
Lemma read_chunks_streaming fuel chunk_size data hasher :
  streaming hs → (0 < chunk_size)%nat → (length data < fuel)%nat →
  read_chunks hs fuel chunk_size data hasher =
  match data with [] => hasher | _ => md5_update hs hasher data end.
Proof.
  intros Hst Hcs. revert data hasher.
  induction fuel as [|fuel IH]; intros data hasher Hlen; [lia|].
  cbn [read_chunks].
  destruct (take chunk_size data) as [|b chunk] eqn:Et.
  { destruct data; [done|]. destruct chunk_size; [lia | done]. }
  assert (length (drop chunk_size data) < length data)%nat.
  { rewrite length_drop. destruct data; [by rewrite take_nil in Et | simpl; lia]. }
  rewrite IH by lia.
  assert (data = (b :: chunk) ++ drop chunk_size data) as Hd.
  { rewrite <-Et. symmetry. apply take_drop. }
  destruct (drop chunk_size data) as [|b' rest] eqn:Ed; rewrite Hd.
  - by rewrite app_nil_r.
  - by rewrite Hst.
Qed.

(** The digest of a readable file is the digest of its whole content. *)
Lemma get_file_hash_streaming p data :
  streaming hs → fs_read fs p = Some data →
  get_file_hash hs fs p default_chunk_size =
  Some (md5_hexdigest hs
          match data with
          | [] => md5_new hs
          | _ => md5_update hs (md5_new hs) data
          end).
Proof.
  intros Hst Hp. unfold get_file_hash. rewrite Hp. f_equal. f_equal.
  apply read_chunks_streaming; [done | | lia].
  unfold default_chunk_size. lia.
Qed.

Lemma get_file_hash_content p q data :
  fs_read fs p = Some data → fs_read fs q = Some data →
  get_file_hash hs fs p default_chunk_size =
  get_file_hash hs fs q default_chunk_size.
Proof. unfold get_file_hash. by intros -> ->. Qed.

Lemma get_file_hash_unreadable p chunk_size :
  fs_read fs p = None → get_file_hash hs fs p chunk_size = None.
Proof. unfold get_file_hash. by intros ->. Qed.

Lemma get_file_hash_readable p chunk_size :
  is_Some (fs_read fs p) ↔ is_Some (get_file_hash hs fs p chunk_size).
Proof.
  unfold get_file_hash. destruct (fs_read fs p); split; intros [? ?]; done.
Qed.
End fingerprint_facts.

(** ** From the dictionaries back to the scanned files *)
Section run_facts.
Context (hs : md5_hasher) (fs : filesystem) (t : Z).
Implicit Types (files : list path) (p q : path) (h : string).

Lemma within_files files p q :
  within (hash_images hs fs files).2 t p q ↔
  p ∈ files ∧ q ∈ files ∧
  ∃ sp sq, get_phash fs p = Some sp ∧ get_phash fs q = Some sq ∧
           hamming sp sq ≤ t.
Proof.
  unfold within. rewrite !phash_map_get.
  destruct (decide (p ∈ files)), (decide (q ∈ files));
    destruct (get_phash fs p), (get_phash fs q); naive_solver.
Qed.

Lemma visual_groups_clusters files :
  visual_groups hs fs t files =
  Some (clusters (hash_images hs fs files).2 t
          (PyDict.keys (hash_images hs fs files).2) ∅).
Proof. apply similar_groups_clusters, phash_map_NoDup. Qed.

Lemma analyze_rows files :
  analyze hs fs t files =
  gs ← visual_groups hs fs t files;
  Some (exact_rows (exact_groups hs fs files) ++ visual_rows gs).
Proof.
  unfold analyze, visual_groups, exact_groups.
  by destruct (hash_images hs fs files).
Qed.

(** The run always ends with a report. *)
Lemma analyze_total files : is_Some (analyze hs fs t files).
Proof. rewrite analyze_rows, visual_groups_clusters. by eexists. Qed.

Lemma exact_groups_entry files h paths :
  (h, paths) ∈ exact_groups hs fs files ↔
  h ≠ "" ∧ (1 < length paths)%nat ∧ paths = digest_class hs fs h files.
Proof.
  unfold exact_groups, exact_duplicates.
  rewrite list_elem_of_filter, exact_hash_map_entry. simpl.
  split; [naive_solver|]. intros (? & Hlen & ->). split_and!; try done.
  intros E. rewrite E in Hlen. simpl in Hlen. lia.
Qed.

Lemma exact_groups_NoDup files : NoDup (exact_groups hs fs files).*1.
Proof.
  eapply sublist_NoDup; [apply (exact_hash_map_NoDup hs fs files)|].
  apply fmap_sublist, sublist_filter.
Qed.

Lemma elem_of_digest_class files h p :
  p ∈ digest_class hs fs h files ↔
  p ∈ files ∧ get_file_hash hs fs p default_chunk_size = Some h.
Proof. unfold digest_class. rewrite list_elem_of_filter. tauto. Qed.

(** Two distinct files of the scan with the same truthy digest share an
    exact group. *)
Lemma exact_groups_pair files h p q :
  h ≠ "" → p ≠ q → p ∈ files → q ∈ files →
  get_file_hash hs fs p default_chunk_size = Some h →
  get_file_hash hs fs q default_chunk_size = Some h →
  (h, digest_class hs fs h files) ∈ exact_groups hs fs files ∧
  p ∈ digest_class hs fs h files ∧ q ∈ digest_class hs fs h files.
Proof.
  intros Hh Hne Hp Hq Hdp Hdq.
  assert (p ∈ digest_class hs fs h files) as Hpc by by apply elem_of_digest_class.
  assert (q ∈ digest_class hs fs h files) as Hqc by by apply elem_of_digest_class.
  split_and!; try done. apply exact_groups_entry. split_and!; try done.
  destruct (digest_class hs fs h files) as [|a [|b l]]; simpl; [| |lia].
  - by apply elem_of_nil in Hpc.
  - apply list_elem_of_singleton in Hpc, Hqc. congruence.
Qed.
End run_facts.

(** ** The visual groups of a run *)
Section visual_groups_facts.
Context (hs : md5_hasher) (fs : filesystem) (t : Z).
Implicit Types (files g ms : list path) (gs : list (list path)) (p x : path).

Lemma decoded_sublist files : decoded fs files `sublist_of` files.
Proof. apply sublist_filter. Qed.

Lemma elem_of_decoded files p :
  p ∈ decoded fs files ↔ p ∈ files ∧ is_Some (get_phash fs p).
Proof. unfold decoded. rewrite list_elem_of_filter. tauto. Qed.

(** Every group is a seed and at least one more file, all of them decoded
    files in scan order, each within the threshold of the seed. *)
Lemma visual_groups_group files gs g :
  visual_groups hs fs t files = Some gs → g ∈ gs →
  ∃ seed ms s0,
    g = seed :: ms ∧ ms ≠ [] ∧ NoDup g ∧ g `sublist_of` files ∧
    get_phash fs seed = Some s0 ∧
    ∀ x, x ∈ ms → ∃ sx, get_phash fs x = Some sx ∧ hamming s0 sx ≤ t.
Proof.
  rewrite visual_groups_clusters. intros [= <-] Hg.
  destruct (clusters_group _ _ _ _ _ Hg) as (seed & ms & -> & Hne & _ & Hsub & Hms).
  destruct ms as [|m ms]; [done|].
  destruct (Hms m) as [_ Hw]; [by left|].
  apply within_files in Hw as (_ & _ & s0 & sm & Hs0 & _ & _).
  exists seed, (m :: ms), s0. split_and!; try done.
  - eapply sublist_NoDup; [apply (phash_map_NoDup hs fs files) | done].
  - etrans; [done | apply phash_map_keys_sublist].
  - intros x Hx. destruct (Hms x Hx) as [_ Hwx].
    apply within_files in Hwx as (_ & _ & s0' & sx & Hs0' & Hsx & Hd).
    exists sx. split; [done|]. congruence.
Qed.

Lemma mjoin_NoDup_lookup gs i j g1 g2 x :
  NoDup (mjoin gs) → gs !! i = Some g1 → gs !! j = Some g2 →
  x ∈ g1 → x ∈ g2 → i = j.
Proof.
  revert i j. induction gs as [|g gs IH]; intros i j Hnd Hi Hj H1 H2; [done|].
  cbn [mjoin list_join] in Hnd. apply NoDup_app in Hnd as (_ & Hdisj & Hnd).
  assert (∀ k g', gs !! k = Some g' → x ∈ g' → x ∈ mjoin gs) as Hin.
  { intros k g' Hk Hx. apply list_elem_of_join. exists g'.
    split; [done|]. by eapply list_elem_of_lookup_2. }
  destruct i as [|i], j as [|j]; simplify_eq/=; [done | | |].
  - exfalso. eapply Hdisj; [done|]. by eapply Hin.
  - exfalso. eapply Hdisj; [done|]. by eapply Hin.
  - f_equal. by eapply IH.
Qed.

(** A file is in at most one visual group. *)
Lemma visual_groups_disjoint files gs i j g1 g2 x :
  visual_groups hs fs t files = Some gs →
  gs !! i = Some g1 → gs !! j = Some g2 → x ∈ g1 → x ∈ g2 → i = j.
Proof.
  rewrite visual_groups_clusters. intros [= <-]. apply mjoin_NoDup_lookup.
  apply clusters_NoDup, phash_map_NoDup.
Qed.

(** A seed takes every later file within the threshold, unless an earlier
    group already has it. *)
Lemma visual_groups_seed_absorbs files gs n b ms l1 l2 x sb sx :
  NoDup files → visual_groups hs fs t files = Some gs →
  gs !! n = Some (b :: ms) → files = l1 ++ b :: l2 → x ∈ l2 →
  get_phash fs b = Some sb → get_phash fs x = Some sx → hamming sb sx ≤ t →
  x ∈ ms ∨ ∃ m g, (m < n)%nat ∧ gs !! m = Some g ∧ x ∈ g.
Proof.
  intros Hnd. rewrite visual_groups_clusters. intros [= <-] Hn -> Hx Hb Hsx Hd.
  rewrite phash_map_keys in * by done.
  eapply (clusters_seed_absorbs _ _ _ _ _ _ _ (decoded fs l1) (decoded fs l2));
    try done.
  - by eapply sublist_NoDup; [|apply decoded_sublist].
  - unfold decoded. rewrite filter_app, filter_cons_True; [done | by eexists].
  - apply elem_of_decoded. split; [done | by eexists].
  - apply within_files. split_and!; [set_solver | set_solver |].
    by exists sb, sx.
Qed.
End visual_groups_facts.

(** ** Properties of the visual pass *)
Section visual_claims.
Context (hs : md5_hasher) (fs : filesystem).
Implicit Types (files g ms : list path) (gs : list (list path)) (p x : path).

(** C1, as amended.  Chaining goes through the seed only: when [B] is the
    first member of a visual group, and [A] and [C] are scanned after [B],
    are each within the threshold of [B] and are in no earlier group, then
    [A], [B] and [C] are in that one group, whatever the distance between
    [A] and [C]. *)
Theorem seed_chaining t files gs n A B C ms l1 l2 sa sb sc :
  NoDup files →
  visual_groups hs fs t files = Some gs →
  gs !! n = Some (B :: ms) →
  files = l1 ++ B :: l2 → A ∈ l2 → C ∈ l2 →
  get_phash fs A = Some sa → get_phash fs B = Some sb →
  get_phash fs C = Some sc →
  hamming sa sb ≤ t → hamming sb sc ≤ t →
  (∀ m g, (m < n)%nat → gs !! m = Some g → A ∉ g ∧ C ∉ g) →
  A ∈ B :: ms ∧ B ∈ B :: ms ∧ C ∈ B :: ms.
Proof.
  intros Hnd Hgs Hn Hfiles HA HC Hsa Hsb Hsc Hab Hbc Hearlier.
  rewrite hamming_comm in Hab.
  split_and!; [right | by left | right].
  - destruct (visual_groups_seed_absorbs hs fs t files gs n B ms l1 l2 A sb sa)
      as [?|(m & g & Hm & Hg & Hin)]; try done.
    by destruct (Hearlier m g Hm Hg).
  - destruct (visual_groups_seed_absorbs hs fs t files gs n B ms l1 l2 C sb sc)
      as [?|(m & g & Hm & Hg & Hin)]; try done.
    by destruct (Hearlier m g Hm Hg).
Qed.

(** C10.  In every visual group each member is within the threshold of
    the first member, the seed; and for a file scanned after the seed that
    no earlier group holds, being in the group is the same as being within
    the threshold of the seed, whatever its distance to the other
    members. *)
Theorem seed_star t files gs n g :
  visual_groups hs fs t files = Some gs → gs !! n = Some g →
  ∃ seed ms s0,
    g = seed :: ms ∧ get_phash fs seed = Some s0 ∧
    (∀ x, x ∈ ms → ∃ sx, get_phash fs x = Some sx ∧ hamming s0 sx ≤ t) ∧
    (NoDup files →
     ∀ l1 l2 x sx,
       files = l1 ++ seed :: l2 → x ∈ l2 → get_phash fs x = Some sx →
       (∀ m g', (m < n)%nat → gs !! m = Some g' → x ∉ g') →
       (x ∈ ms ↔ hamming s0 sx ≤ t)).
Proof.
  intros Hgs Hn.
  destruct (visual_groups_group hs fs t files gs g Hgs)
    as (seed & ms & s0 & -> & _ & _ & _ & Hs0 & Hstar);
    [by eapply list_elem_of_lookup_2|].
  exists seed, ms, s0. split_and!; try done.
  intros Hnd l1 l2 x sx Hfiles Hx Hsx Hearlier. split.
  - intros (sx' & Hsx' & Hd)%Hstar. congruence.
  - intros Hd.
    destruct (visual_groups_seed_absorbs hs fs t files gs n seed ms l1 l2 x s0 sx)
      as [?|(m & g' & Hm & Hg' & Hin)]; try done.
    by destruct (Hearlier m g' Hm Hg').
Qed.

(** C8.  With threshold 0 the members of a visual group all have the same
    signature; with threshold 64 the decoded files, when there are at
    least two, form the only visual group. *)
Theorem threshold_boundary files :
  (∀ p s, p ∈ files → get_phash fs p = Some s → wf_phash s) →
  (∃ gs, visual_groups hs fs 0 files = Some gs ∧
     ∀ g p q sp sq, g ∈ gs → p ∈ g → q ∈ g →
       get_phash fs p = Some sp → get_phash fs q = Some sq → sp = sq) ∧
  (∀ p q, p ≠ q → p ∈ decoded fs files → q ∈ decoded fs files →
     ∃ g, visual_groups hs fs 64 files = Some [g] ∧
          ∀ x, x ∈ g ↔ x ∈ decoded fs files).
Proof.
  intros Hwf. split.
  - eexists. split; [apply visual_groups_clusters|].
    intros g p q sp sq Hg Hp Hq Hsp Hsq.
    destruct (visual_groups_group hs fs 0 files _ g
                (visual_groups_clusters hs fs 0 files) Hg)
      as (seed & ms & s0 & -> & _ & _ & Hsub & Hs0 & Hstar).
    assert (∀ x sx, x ∈ seed :: ms → get_phash fs x = Some sx → sx = s0) as Heq.
    { intros x sx Hx Hsx. apply elem_of_cons in Hx as [->|Hx]; [congruence|].
      destruct (Hstar x Hx) as (sx' & Hsx' & Hd). simplify_eq.
      symmetry. apply hamming_0_eq; [| |done].
      - apply (Hwf seed); [|done]. eapply elem_of_sublist; [by left | done].
      - apply (Hwf x); [|done]. eapply elem_of_sublist; [by right | done]. }
    rewrite (Heq p sp), (Heq q sq); done.
  - intros p q Hne Hp Hq. rewrite visual_groups_clusters.
    exists (PyDict.keys (hash_images hs fs files).2).
    split; [|intros x; apply phash_map_key].
    apply (phash_map_key hs fs) in Hp, Hq.
    pose proof (phash_map_NoDup hs fs files) as Hnd.
    assert (∀ x y, x ∈ PyDict.keys (hash_images hs fs files).2 →
                   y ∈ PyDict.keys (hash_images hs fs files).2 →
                   within (hash_images hs fs files).2 64 x y) as Hnear.
    { intros x y [Hx [sx Hsx]]%phash_map_key%elem_of_decoded
                 [Hy [sy Hsy]]%phash_map_key%elem_of_decoded.
      apply within_files. split_and!; try done.
      exists sx, sy. split_and!; try done. apply hamming_le_64. }
    destruct (PyDict.keys (hash_images hs fs files).2) as [|k ks];
      [by apply elem_of_nil in Hp|].
    f_equal. apply clusters_all_near; [done | | ].
    + intros ->. apply list_elem_of_singleton in Hp, Hq. congruence.
    + intros x Hx. apply Hnear; [by left | by right].
Qed.
End visual_claims.

(** ** Properties of the exact pass and of the report *)
Section exact_facts.
Context (hs : md5_hasher) (fs : filesystem).
Implicit Types (files paths : list path) (p q : path) (h : string).

Lemma hash_image_fst em pm p :
  (hash_image hs fs (em, pm) p).1 =
  match get_file_hash hs fs p default_chunk_size with
  | Some h => if truthy h then PyDict.append h p em else em
  | None => em
  end.
Proof. done. Qed.

(** A file without digest leaves [exact_hash_map] as it was. *)
Lemma exact_hash_map_skip files p :
  get_file_hash hs fs p default_chunk_size = None →
  (hash_images hs fs files).1 =
  (hash_images hs fs (filter (λ q, q ≠ p) files)).1.
Proof.
  intros Hp. induction files as [|q files IH] using rev_ind; [done|].
  rewrite filter_app, hash_images_snoc.
  destruct (hash_images hs fs files) as [em pm] eqn:E.
  rewrite hash_image_fst. destruct (decide (q = p)) as [->|Hne].
  - rewrite filter_cons_False, filter_nil, app_nil_r by naive_solver.
    by rewrite Hp.
  - rewrite filter_cons_True, filter_nil, hash_images_snoc by done.
    destruct (hash_images hs fs (filter _ files)) as [em' pm'].
    rewrite hash_image_fst. simpl in IH. by rewrite IH.
Qed.

Lemma exact_groups_member files h paths p :
  (h, paths) ∈ exact_groups hs fs files → p ∈ paths →
  p ∈ files ∧ get_file_hash hs fs p default_chunk_size = Some h.
Proof.
  intros (_ & _ & ->)%exact_groups_entry. apply elem_of_digest_class.
Qed.

Lemma NoDup_other (l : list path) p :
  NoDup l → (2 ≤ length l)%nat → ∃ q, q ∈ l ∧ q ≠ p.
Proof.
  intros Hnd Hlen. destruct l as [|a [|b l]]; simpl in Hlen; [lia | lia |].
  apply NoDup_cons in Hnd as [Hab _].
  destruct (decide (a = p)) as [->|Hne].
  - exists b. split; [set_solver|]. intros ->. apply Hab. by left.
  - exists a. split; [by left | done].
Qed.
(** Two distinct scanned files with the same bytes are in one exact
    group, keyed by their common digest. *)
Lemma same_bytes_same_group files p q data :
  (∀ st, md5_hexdigest hs st ≠ "") →
  p ∈ files → q ∈ files → p ≠ q →
  fs_read fs p = Some data → fs_read fs q = Some data →
  ∃ h paths, (h, paths) ∈ exact_groups hs fs files ∧ p ∈ paths ∧ q ∈ paths ∧
             get_file_hash hs fs p default_chunk_size = Some h.
Proof.
  intros Hne Hpf Hqf Hpq Hp Hq.
  pose proof (get_file_hash_content hs fs p q data Hp Hq) as Heq.
  destruct (get_file_hash hs fs p default_chunk_size) as [h|] eqn:Eh.
  2:{ unfold get_file_hash in Eh. by rewrite Hp in Eh. }
  exists h, (digest_class hs fs h files).
  destruct (exact_groups_pair hs fs files h p q) as (? & ? & ?); try done.
  unfold get_file_hash in Eh. rewrite Hp in Eh. injection Eh as <-.
  apply Hne.
Qed.
End exact_facts.

Section report_facts.
Implicit Types (gs : list (list path)).

Lemma bind_imap_pair {B} (k : nat → nat) (G : nat * list path → list B) gs :
  imap (λ idx group, (k idx, group)) gs ≫= G =
  mjoin (imap (λ idx group, G (k idx, group)) gs).
Proof.
  revert k. induction gs as [|g gs IH]; intros k; [done|].
  rewrite !imap_cons, bind_cons. cbn [mjoin list_join]. f_equal.
  apply (IH (k ∘ S)).
Qed.

Lemma visual_rows_join gs :
  visual_rows gs =
  mjoin (imap (λ n g, (λ file, {| type := "visual_duplicate";
                                  group_id := "visual_group_" +:+ pretty n;
                                  file_path := file |}) <$> g) gs).
Proof. unfold visual_rows. apply (bind_imap_pair id). Qed.

Lemma exact_rows_join (exact : list (string * list path)) :
  exact_rows exact =
  mjoin ((λ hp, (λ file, {| type := "exact_duplicate"; group_id := hp.1;
                            file_path := file |}) <$> hp.2) <$> exact).
Proof.
  unfold exact_rows. induction exact as [|hp exact IH]; [done|].
  rewrite bind_cons, fmap_cons. cbn [mjoin list_join]. by rewrite IH.
Qed.

Lemma elem_of_exact_rows (exact : list (string * list path)) r :
  r ∈ exact_rows exact ↔
  ∃ h paths, (h, paths) ∈ exact ∧ file_path r ∈ paths ∧
             r = {| type := "exact_duplicate"; group_id := h;
                    file_path := file_path r |}.
Proof.
  unfold exact_rows. rewrite list_elem_of_bind. split.
  - intros ([h paths] & (p & -> & Hp)%list_elem_of_fmap & Hhp).
    by exists h, paths.
  - intros (h & paths & Hhp & Hp & ->). exists (h, paths).
    split; [|done]. apply list_elem_of_fmap. by eexists.
Qed.

Lemma elem_of_visual_rows gs r :
  r ∈ visual_rows gs ↔
  ∃ n g, gs !! n = Some g ∧ file_path r ∈ g ∧
         r = {| type := "visual_duplicate"; group_id := visual_group_id n;
                file_path := file_path r |}.
Proof.
  unfold visual_rows. rewrite list_elem_of_bind. split.
  - intros ([n g] & (p & -> & Hp)%list_elem_of_fmap & Hng).
    apply elem_of_lookup_imap in Hng as (n' & g' & [= -> ->] & Hn).
    by exists n', g'.
  - intros (n & g & Hn & Hp & ->). exists (n, g). split.
    + apply list_elem_of_fmap. by eexists.
    + apply elem_of_lookup_imap. by exists n, g.
Qed.
End report_facts.

Section determinism_facts.
Context (hs1 hs2 : md5_hasher) (fs1 fs2 : filesystem).

(** The dictionaries depend on the world only through the fingerprints of
    the scanned files. *)
Lemma hash_images_ext (files : list path) :
  (∀ p, p ∈ files →
     get_file_hash hs1 fs1 p default_chunk_size =
     get_file_hash hs2 fs2 p default_chunk_size ∧
     get_phash fs1 p = get_phash fs2 p) →
  hash_images hs1 fs1 files = hash_images hs2 fs2 files.
Proof.
  induction files as [|q files IH] using rev_ind; intros Hsame; [done|].
  rewrite !hash_images_snoc, IH by (intros p Hp; apply Hsame; set_solver).
  destruct (Hsame q) as [Hd Hp]; [set_solver|].
  destruct (hash_images hs2 fs2 files) as [em pm].
  unfold hash_image. by rewrite Hd, Hp.
Qed.
End determinism_facts.

Section analysis_claims.
Context (hs : md5_hasher) (fs : filesystem).
Implicit Types (files paths g : list path) (p q : path) (h : string).

(** C2.  Two files with the same bytes get the same digest, and when both
    are in the scan they are in one exact group; the members of an exact
    group all have the digest that keys it, so files with different
    digests never share a group; every digest class of two or more files
    is an exact group. *)
Theorem exact_grouping_correct files :
  (∀ st, md5_hexdigest hs st ≠ "") →
  (∀ p q data,
     fs_read fs p = Some data → fs_read fs q = Some data →
     ∃ h, get_file_hash hs fs p default_chunk_size = Some h ∧
          get_file_hash hs fs q default_chunk_size = Some h ∧
          (p ∈ files → q ∈ files → p ≠ q →
           ∃ paths, (h, paths) ∈ exact_groups hs fs files ∧
                    p ∈ paths ∧ q ∈ paths)) ∧
  (∀ h paths p q,
     (h, paths) ∈ exact_groups hs fs files → p ∈ paths → q ∈ paths →
     get_file_hash hs fs p default_chunk_size = Some h ∧
     get_file_hash hs fs q default_chunk_size = Some h) ∧
  (∀ h, (2 ≤ length (digest_class hs fs h files))%nat →
        (h, digest_class hs fs h files) ∈ exact_groups hs fs files).
Proof.
  intros Hne. split_and!.
  - intros p q data Hp Hq.
    pose proof (get_file_hash_content hs fs p q data Hp Hq) as Heq.
    destruct (get_file_hash hs fs p default_chunk_size) as [h|] eqn:Eh.
    2:{ unfold get_file_hash in Eh. by rewrite Hp in Eh. }
    exists h. split_and!; [done | done |]. intros Hpf Hqf Hpq.
    destruct (same_bytes_same_group hs fs files p q data)
      as (h' & paths & Hg & Hpp & Hqp & Eh'); try done.
    exists paths. by assert (h = h') as -> by congruence.
  - intros h paths p q Hg Hp Hq.
    split; by eapply exact_groups_member.
  - intros h Hlen. apply exact_groups_entry. split_and!; [|lia|done].
    destruct (digest_class hs fs h files) as [|p l] eqn:E;
      [simpl in Hlen; lia|].
    assert (p ∈ digest_class hs fs h files) as Hp by (rewrite E; by left).
    apply elem_of_digest_class in Hp as [_ Hp].
    unfold get_file_hash in Hp. destruct (fs_read fs p); [|done].
    injection Hp as <-. apply Hne.
Qed.

(** C3.  A file is in at most one exact group and in at most one visual
    group of a run; and there are runs where one file is in a group of
    each kind. *)
Theorem membership_invariant t files :
  (∀ i j e1 e2 p,
     exact_groups hs fs files !! i = Some e1 →
     exact_groups hs fs files !! j = Some e2 →
     p ∈ e1.2 → p ∈ e2.2 → i = j) ∧
  (∃ gs, visual_groups hs fs t files = Some gs ∧
     ∀ i j g1 g2 p,
       gs !! i = Some g1 → gs !! j = Some g2 → p ∈ g1 → p ∈ g2 → i = j) ∧
  (∃ hs' fs' t' files' p h paths gs g,
     (h, paths) ∈ exact_groups hs' fs' files' ∧ p ∈ paths ∧
     visual_groups hs' fs' t' files' = Some gs ∧ g ∈ gs ∧ p ∈ g).
Proof.
  split_and!.
  - intros i j [h1 g1] [h2 g2] p Hi Hj Hp1 Hp2. simpl in *.
    destruct (exact_groups_member hs fs files h1 g1 p) as [_ E1];
      [by eapply list_elem_of_lookup_2 | done |].
    destruct (exact_groups_member hs fs files h2 g2 p) as [_ E2];
      [by eapply list_elem_of_lookup_2 | done |].
    assert (h1 = h2) as <- by congruence.
    eapply (NoDup_lookup _ i j h1); [apply (exact_groups_NoDup hs fs files) | |].
    + by rewrite list_lookup_fmap, Hi.
    + by rewrite list_lookup_fmap, Hj.
  - eexists. split; [apply visual_groups_clusters|].
    intros i j g1 g2 p. eapply visual_groups_disjoint.
    apply visual_groups_clusters.
  - exists Demo.plain_hasher, Demo.gallery_fs, 5, Demo.gallery, "a.jpg",
      "md5:xx", ["a.jpg"; "b.jpg"], [["a.jpg"; "b.jpg"; "c.jpg"; "g.jpg"]],
      ["a.jpg"; "b.jpg"; "c.jpg"; "g.jpg"].
    split_and!; [by vm_compute; left | by left | by vm_compute | by left | by left].
Qed.

(** C5.  A file that does not decode is in no visual group, the run still
    ends with a report, and the file is in an exact group with any other
    scanned file that has the same bytes. *)
Theorem decode_failure_isolation t files p :
  (∀ st, md5_hexdigest hs st ≠ "") →
  get_phash fs p = None →
  is_Some (analyze hs fs t files) ∧
  (∃ gs, visual_groups hs fs t files = Some gs ∧ ∀ g, g ∈ gs → p ∉ g) ∧
  (∀ q data,
     p ∈ files → q ∈ files → q ≠ p →
     fs_read fs p = Some data → fs_read fs q = Some data →
     ∃ h paths, (h, paths) ∈ exact_groups hs fs files ∧ p ∈ paths ∧ q ∈ paths).
Proof.
  intros Hne Hp. split_and!.
  - apply analyze_total.
  - eexists. split; [apply visual_groups_clusters|]. intros g Hg Hin.
    destruct (visual_groups_group hs fs t files _ g
                (visual_groups_clusters hs fs t files) Hg)
      as (seed & ms & s0 & -> & _ & _ & _ & Hs0 & Hstar).
    apply elem_of_cons in Hin as [->|Hin]; [congruence|].
    destruct (Hstar p Hin) as (sx & Hsx & _). congruence.
  - intros q data Hpf Hqf Hqp Hrp Hrq.
    destruct (same_bytes_same_group hs fs files p q data)
      as (h & paths & ? & ? & ? & _); try done.
    by exists h, paths.
Qed.

(** C6.  A file that cannot be read has no digest, is in no exact group
    and changes nothing to the exact groups of the other files; the run
    ends with a report all the same. *)
Theorem read_failure_isolation t files p :
  fs_read fs p = None →
  get_file_hash hs fs p default_chunk_size = None ∧
  (∀ h paths, (h, paths) ∈ exact_groups hs fs files → p ∉ paths) ∧
  exact_groups hs fs files = exact_groups hs fs (filter (λ q, q ≠ p) files) ∧
  is_Some (analyze hs fs t files).
Proof.
  intros Hp.
  pose proof (get_file_hash_unreadable hs fs p default_chunk_size Hp) as Hd.
  split_and!; [done | | | apply analyze_total].
  - intros h paths Hg Hin.
    destruct (exact_groups_member hs fs files h paths p Hg Hin) as [_ E].
    congruence.
  - unfold exact_groups. by rewrite (exact_hash_map_skip hs fs files p).
Qed.

(** C7.  With distinct scanned paths, every exact group and every visual
    group holds at least two distinct files; a file whose digest no other
    file has is in no exact group, and a file whose signature is within
    the threshold of no other file is in no visual group. *)
Theorem minimum_group_size t files :
  NoDup files →
  (∀ h paths, (h, paths) ∈ exact_groups hs fs files →
     (2 ≤ length paths)%nat ∧ NoDup paths) ∧
  (∃ gs, visual_groups hs fs t files = Some gs ∧
     ∀ g, g ∈ gs → (2 ≤ length g)%nat ∧ NoDup g) ∧
  (∀ p,
     (∀ q, q ∈ files → q ≠ p →
        get_file_hash hs fs q default_chunk_size ≠
        get_file_hash hs fs p default_chunk_size) →
     (∀ h paths, (h, paths) ∈ exact_groups hs fs files → p ∉ paths) ∧
     (∀ rows r, analyze hs fs t files = Some rows → r ∈ rows →
        file_path r = p → type r ≠ "exact_duplicate")) ∧
  (∀ p,
     (∀ q sp sq, q ∈ files → q ≠ p →
        get_phash fs p = Some sp → get_phash fs q = Some sq →
        t < hamming sp sq) →
     (∀ gs g, visual_groups hs fs t files = Some gs → g ∈ gs → p ∉ g) ∧
     (∀ rows r, analyze hs fs t files = Some rows → r ∈ rows →
        file_path r = p → type r ≠ "visual_duplicate")).
Proof.
  intros Hnd.
  assert (∀ h paths, (h, paths) ∈ exact_groups hs fs files →
            (2 ≤ length paths)%nat ∧ NoDup paths) as Hexact.
  { intros h paths (_ & Hlen & ->)%exact_groups_entry. split; [lia|].
    by apply NoDup_filter. }
  assert (∀ rows r, analyze hs fs t files = Some rows → r ∈ rows →
            (∃ h paths, (h, paths) ∈ exact_groups hs fs files ∧
                        file_path r ∈ paths ∧ type r = "exact_duplicate") ∨
            (∃ gs g, visual_groups hs fs t files = Some gs ∧ g ∈ gs ∧
                     file_path r ∈ g ∧ type r = "visual_duplicate")) as Hrows.
  { intros rows r. rewrite analyze_rows.
    destruct (visual_groups hs fs t files) as [gs|]; [|done].
    intros [= <-] [Hr|Hr]%elem_of_app.
    - apply elem_of_exact_rows in Hr as (h & paths & ? & ? & ->).
      left. by exists h, paths.
    - apply elem_of_visual_rows in Hr as (n & g & Hn & ? & ->).
      right. exists gs, g. split_and!; try done.
      by eapply list_elem_of_lookup_2. }
  split_and!; [done | | |].
  - eexists. split; [apply visual_groups_clusters|]. intros g Hg.
    destruct (visual_groups_group hs fs t files _ g
                (visual_groups_clusters hs fs t files) Hg)
      as (seed & ms & s0 & -> & Hms & Hndg & _).
    split; [|done]. destruct ms; [done | simpl; lia].
  - intros p Hunique.
    assert (∀ h paths, (h, paths) ∈ exact_groups hs fs files → p ∉ paths)
      as Hnone; [|split; [done|]].
    2:{ intros rows r Hr Hin <- Hty.
        destruct (Hrows rows r Hr Hin)
          as [(h & paths & Hg & Hp & _)|(_ & _ & _ & _ & _ & Hty')].
        - by apply (Hnone h paths).
        - rewrite Hty in Hty'. discriminate. }
    intros h paths Hg Hin.
    destruct (Hexact h paths Hg) as [Hlen Hndp].
    destruct (NoDup_other paths p Hndp Hlen) as (q & Hq & Hqp).
    destruct (exact_groups_member hs fs files h paths p Hg Hin) as [_ E1].
    destruct (exact_groups_member hs fs files h paths q Hg Hq) as [Hqf E2].
    apply (Hunique q Hqf Hqp). congruence.
  - intros p Hfar.
    assert (∀ gs g, visual_groups hs fs t files = Some gs → g ∈ gs → p ∉ g)
      as Hnone; [|split; [done|]].
    2:{ intros rows r Hr Hin <- Hty.
        destruct (Hrows rows r Hr Hin)
          as [(_ & _ & _ & _ & Hty')|(gs & g & Hgs & Hg & Hp & _)].
        - rewrite Hty in Hty'. discriminate.
        - by apply (Hnone gs g). }
    intros gs g Hgs Hg Hin.
    destruct (visual_groups_group hs fs t files gs g Hgs Hg)
      as (seed & ms & s0 & -> & Hms & Hndg & Hsub & Hs0 & Hstar).
    apply NoDup_cons in Hndg as [Hseed _].
    apply elem_of_cons in Hin as [->|Hin].
    + destruct ms as [|m ms]; [done|].
      destruct (Hstar m) as (sm & Hsm & Hd); [by left|].
      assert (t < hamming s0 sm); [|lia].
      apply (Hfar m); try done.
      * eapply elem_of_sublist; [|done]. right. by left.
      * intros ->. apply Hseed. by left.
    + destruct (Hstar p Hin) as (sp & Hsp & Hd).
      assert (t < hamming sp s0); [|rewrite hamming_comm in Hd; lia].
      apply (Hfar seed); try done.
      * eapply elem_of_sublist; [|done]. by left.
      * by intros ->.
Qed.

(** C9.  The report is the rows of the exact groups followed by the rows
    of the visual groups, one row per group and member: an exact row
    carries the digest of its group, a visual row the label
    [visual_group_n] where [n] counts the visual groups from 0; the
    members of a group are listed in scan order. *)
Theorem report_shape t files :
  ∃ gs,
    visual_groups hs fs t files = Some gs ∧
    analyze hs fs t files =
      Some
        (mjoin ((λ hp, (λ file, {| type := "exact_duplicate";
                                   group_id := hp.1;
                                   file_path := file |}) <$> hp.2)
                <$> exact_groups hs fs files) ++
         mjoin (imap (λ n g, (λ file, {| type := "visual_duplicate";
                                         group_id := "visual_group_" +:+ pretty n;
                                         file_path := file |}) <$> g) gs)) ∧
    (∀ h paths, (h, paths) ∈ exact_groups hs fs files →
       paths `sublist_of` files ∧
       ∀ p, p ∈ paths → get_file_hash hs fs p default_chunk_size = Some h) ∧
    (∀ g, g ∈ gs → g `sublist_of` files).
Proof.
  eexists. split_and!; [apply visual_groups_clusters | | |].
  - rewrite analyze_rows, visual_groups_clusters. cbn [mbind option_bind].
    by rewrite exact_rows_join, visual_rows_join.
  - intros h paths Hg. split.
    + apply exact_groups_entry in Hg as (_ & _ & ->). apply sublist_filter.
    + intros p Hp. by eapply exact_groups_member.
  - intros g Hg.
    destruct (visual_groups_group hs fs t files _ g
                (visual_groups_clusters hs fs t files) Hg)
      as (seed & ms & s0 & -> & _ & _ & Hsub & _). done.
Qed.
End analysis_claims.

(** C4.  The report, the groups, their identifiers, seeds and member
    order are a function of the scan order, the digests and the
    signatures alone: two runs that see the same fingerprints for the
    scanned files produce the same output. *)
Theorem analysis_deterministic hs1 fs1 hs2 fs2 t (files : list path) :
  (∀ p, p ∈ files →
     get_file_hash hs1 fs1 p default_chunk_size =
     get_file_hash hs2 fs2 p default_chunk_size ∧
     get_phash fs1 p = get_phash fs2 p) →
  exact_groups hs1 fs1 files = exact_groups hs2 fs2 files ∧
  visual_groups hs1 fs1 t files = visual_groups hs2 fs2 t files ∧
  fmap (M:=list) head <$> visual_groups hs1 fs1 t files =
    fmap (M:=list) head <$> visual_groups hs2 fs2 t files ∧
  analyze hs1 fs1 t files = analyze hs2 fs2 t files.
Proof.
  intros Hsame. unfold exact_groups, visual_groups, analyze.
  by rewrite (hash_images_ext hs1 hs2 fs1 fs2 files Hsame).
Qed.

(** ** The properties at work on concrete runs *)

Lemma plain_hasher_nonempty st : md5_hexdigest Demo.plain_hasher st ≠ "".
Proof. done. Qed.

(** C1 as stated fails: scanned in the order A, B, C at
    threshold 5, images at distances d(A,B) = 3, d(B,C) = 3, d(A,C) = 6
    give the single group [A; B], and C is left out. *)
Lemma single_linkage_chaining_fails :
  ¬ single_linkage_chaining Demo.plain_hasher Demo.chain_fs 5 ["A"; "B"; "C"].
Proof.
  intros Hchain.
  destruct (Hchain "A" "B" "C" 0 7 63)
    as (gs & g & Hgs & Hg & _ & _ & HC); try done; try in_list.
  vm_compute in Hgs. injection Hgs as <-.
  apply list_elem_of_singleton in Hg as ->.
  by_cases_in HC.
Qed.

Lemma seed_chaining_witness :
  5 < hamming 0 63 ∧
  "A" ∈ ["B"; "A"; "C"] ∧ "B" ∈ ["B"; "A"; "C"] ∧ "C" ∈ ["B"; "A"; "C"].
Proof.
  split; [by vm_compute|].
  apply (seed_chaining Demo.plain_hasher Demo.chain_fs 5 ["B"; "A"; "C"]
           [["B"; "A"; "C"]] 0 "A" "B" "C" ["A"; "C"] [] ["A"; "C"] 0 7 63);
    try reflexivity; try in_list; try (by vm_compute).
  - compute_done.
  - intros m g Hm. lia.
Defined.

Lemma seed_star_witness :
  ∃ seed ms s0,
    ["A"; "B"] = seed :: ms ∧ get_phash Demo.chain_fs seed = Some s0 ∧
    ∀ x, x ∈ ms → ∃ sx, get_phash Demo.chain_fs x = Some sx ∧ hamming s0 sx ≤ 5.
Proof.
  destruct (seed_star Demo.plain_hasher Demo.chain_fs 5 ["A"; "B"; "C"]
              [["A"; "B"]] 0 ["A"; "B"])
    as (seed & ms & s0 & ? & ? & ? & _); [by vm_compute | reflexivity |].
  by exists seed, ms, s0.
Defined.

Lemma threshold_boundary_witness :
  ∃ g, visual_groups Demo.plain_hasher Demo.gallery_fs 64 Demo.gallery = Some [g] ∧
       ∀ x, x ∈ g ↔ x ∈ decoded Demo.gallery_fs Demo.gallery.
Proof.
  destruct (threshold_boundary Demo.plain_hasher Demo.gallery_fs Demo.gallery)
    as [_ Hall].
  - intros p s Hp Hs. unfold Demo.gallery in Hp.
    by_cases_in Hp; vm_compute in Hs; try discriminate;
      injection Hs as <-; unfold wf_phash; lia.
  - apply (Hall "a.jpg" "c.jpg"); [discriminate | compute_done | compute_done].
Defined.

Lemma exact_grouping_correct_witness :
  ∃ h paths,
    (h, paths) ∈ exact_groups Demo.plain_hasher Demo.gallery_fs Demo.gallery ∧
    "a.jpg" ∈ paths ∧ "b.jpg" ∈ paths.
Proof.
  destruct (exact_grouping_correct Demo.plain_hasher Demo.gallery_fs
              Demo.gallery plain_hasher_nonempty) as (Hsame & _ & _).
  destruct (Hsame "a.jpg" "b.jpg" (String.list_byte_of_string "xx"))
    as (h & _ & _ & Hgroup); [reflexivity | reflexivity |].
  destruct Hgroup as (paths & ? & ? & ?);
    [unfold Demo.gallery; in_list | unfold Demo.gallery; in_list | discriminate |].
  by exists h, paths.
Defined.

Lemma decode_failure_isolation_witness :
  ∃ h paths,
    (h, paths) ∈ exact_groups Demo.plain_hasher Demo.gallery_fs Demo.gallery ∧
    "e.txt.jpg" ∈ paths ∧ "f.jpg" ∈ paths.
Proof.
  destruct (decode_failure_isolation Demo.plain_hasher Demo.gallery_fs 5
              Demo.gallery "e.txt.jpg" plain_hasher_nonempty)
    as (_ & _ & Hexact); [reflexivity|].
  apply (Hexact "f.jpg" (String.list_byte_of_string "tt"));
    [unfold Demo.gallery; in_list | unfold Demo.gallery; in_list
    | discriminate | reflexivity | reflexivity].
Defined.

Lemma read_failure_isolation_witness :
  get_file_hash Demo.plain_hasher Demo.gallery_fs "g.jpg" default_chunk_size
    = None ∧
  is_Some (analyze Demo.plain_hasher Demo.gallery_fs 5 Demo.gallery).
Proof.
  destruct (read_failure_isolation Demo.plain_hasher Demo.gallery_fs 5
              Demo.gallery "g.jpg") as (? & _ & _ & ?); [reflexivity|].
  by split.
Defined.

Lemma minimum_group_size_witness :
  NoDup Demo.gallery ∧
  (2 ≤ length ["a.jpg"; "b.jpg"])%nat ∧ NoDup ["a.jpg"; "b.jpg"].
Proof.
  assert (NoDup Demo.gallery) as Hnd by compute_done.
  split; [exact Hnd|].
  destruct (minimum_group_size Demo.plain_hasher Demo.gallery_fs
              SIMILARITY_THRESHOLD Demo.gallery Hnd) as (Hexact & _).
  apply (Hexact "md5:xx"). vm_compute. in_list.
Defined.

Lemma analysis_deterministic_witness :
  analyze Demo.plain_hasher Demo.gallery_fs 5 Demo.gallery =
  analyze Demo.plain_hasher Demo.gallery_fs_later 5 Demo.gallery.
Proof.
  destruct (analysis_deterministic Demo.plain_hasher Demo.gallery_fs
              Demo.plain_hasher Demo.gallery_fs_later 5 Demo.gallery)
    as (_ & _ & _ & Hsame); [|exact Hsame].
  intros p Hp. unfold Demo.gallery in Hp. by_cases_in Hp; by vm_compute.
Defined.

(** The chain of three images scanned from one end, then from the middle:
    the groups depend on which file comes first. *)
Example chain_from_end :
  visual_groups Demo.plain_hasher Demo.chain_fs SIMILARITY_THRESHOLD
    ["A"; "B"; "C"] = Some [["A"; "B"]].
Proof. by vm_compute. Qed.

Example chain_from_middle :
  visual_groups Demo.plain_hasher Demo.chain_fs SIMILARITY_THRESHOLD
    ["B"; "A"; "C"] = Some [["B"; "A"; "C"]].
Proof. by vm_compute. Qed.

(** The report on the gallery: two exact groups, then one visual group. *)
Example gallery_report :
  analyze Demo.plain_hasher Demo.gallery_fs SIMILARITY_THRESHOLD Demo.gallery =
  Some
    [ {| type := "exact_duplicate"; group_id := "md5:xx"; file_path := "a.jpg" |};
      {| type := "exact_duplicate"; group_id := "md5:xx"; file_path := "b.jpg" |};
      {| type := "exact_duplicate"; group_id := "md5:tt";
         file_path := "e.txt.jpg" |};
      {| type := "exact_duplicate"; group_id := "md5:tt"; file_path := "f.jpg" |};
      {| type := "visual_duplicate"; group_id := "visual_group_0";
         file_path := "a.jpg" |};
      {| type := "visual_duplicate"; group_id := "visual_group_0";
         file_path := "b.jpg" |};
      {| type := "visual_duplicate"; group_id := "visual_group_0";
         file_path := "c.jpg" |};
      {| type := "visual_duplicate"; group_id := "visual_group_0";
         file_path := "g.jpg" |} ].
Proof. by vm_compute. Qed.

(** ** Scanning: strings *)
Section pystr_facts.
Implicit Types (s t : string) (c : Ascii.ascii).

Lemma chars_app s t : PyStr.chars (s +:+ t) = PyStr.chars s ++ PyStr.chars t.
Proof.
  unfold PyStr.chars. induction s as [|c s IH]; [done|].
  simpl. by rewrite IH.
Qed.

Lemma chars_inj s t : PyStr.chars s = PyStr.chars t → s = t.
Proof.
  unfold PyStr.chars. intros E.
  by rewrite <-(String.string_of_list_ascii_of_string s),
             <-(String.string_of_list_ascii_of_string t), E.
Qed.

Lemma lower_app s t : PyStr.lower (s +:+ t) = PyStr.lower s +:+ PyStr.lower t.
Proof. induction s as [|c s IH]; [done|]. simpl. by rewrite IH. Qed.

Lemma lower_char_idemp c :
  PyStr.lower_char (PyStr.lower_char c) = PyStr.lower_char c.
Proof. by destruct c as [[] [] [] [] [] [] [] []]. Qed.

Lemma lower_idemp s : PyStr.lower (PyStr.lower s) = PyStr.lower s.
Proof.
  induction s as [|c s IH]; [done|]. simpl. by rewrite lower_char_idemp, IH.
Qed.

Lemma endswith_app s t : PyStr.endswith (s +:+ t) t = true.
Proof.
  unfold PyStr.endswith. apply bool_decide_eq_true. rewrite chars_app.
  by apply suffix_app_r.
Qed.

Lemma endswith_any_true s suffixes :
  PyStr.endswith_any s suffixes = true ↔
  ∃ e, e ∈ suffixes ∧ PyStr.endswith s e = true.
Proof.
  unfold PyStr.endswith_any. rewrite existsb_exists.
  split; intros (e & He & ?); exists e; by rewrite ?list_elem_of_In in *.
Qed.
End pystr_facts.

(** ** Scanning: which files, in which order *)
Section scan_facts.
Context (join : string → string → string).
Implicit Types (exts : list string) (file p : string)
  (walk : list (string * list string * list string)).

Lemma chars_lower s : PyStr.chars (PyStr.lower s) = PyStr.lower_char <$> PyStr.chars s.
Proof.
  unfold PyStr.chars. induction s as [|c s IH]; [done|].
  cbn [PyStr.lower String.list_ascii_of_string]. by rewrite IH.
Qed.

Lemma chars_of_list (l : list Ascii.ascii) :
  PyStr.chars (String.string_of_list_ascii l) = l.
Proof. apply String.list_ascii_of_string_of_list_ascii. Qed.

Lemma elem_of_scan_images exts walk p :
  p ∈ scan_images join exts walk ↔
  ∃ entry file, entry ∈ walk ∧ file ∈ entry.2 ∧ is_image exts file = true ∧
                p = join entry.1.1 file.
Proof.
  unfold scan_images. rewrite list_elem_of_bind. split.
  - intros (entry & (file & -> & [? ?]%list_elem_of_filter)%list_elem_of_fmap & ?).
    by exists entry, file.
  - intros (entry & file & ? & ? & ? & ->). exists entry. split; [|done].
    apply list_elem_of_fmap. exists file. split; [done|].
    by apply list_elem_of_filter.
Qed.

Lemma filter_sublist_impl {A} (P Q : A → Prop)
    `{∀ x, Decision (P x)} `{∀ x, Decision (Q x)} (l : list A) :
  (∀ x, P x → Q x) → filter P l `sublist_of` filter Q l.
Proof.
  intros HPQ. induction l as [|x l IH]; [done|].
  rewrite !filter_cons. destruct (decide (P x)) as [HP|HP].
  - rewrite decide_True by auto. by apply sublist_skip.
  - destruct (decide (Q x)); [by apply sublist_cons | done].
Qed.

Lemma scan_images_sublist exts1 exts2 walk :
  (∀ file, is_image exts1 file = true → is_image exts2 file = true) →
  scan_images join exts1 walk `sublist_of` scan_images join exts2 walk.
Proof.
  intros Himp. unfold scan_images.
  induction walk as [|entry walk IH]; [done|].
  rewrite !bind_cons. apply sublist_app; [|done].
  by apply fmap_sublist, filter_sublist_impl.
Qed.

(** X1.  A file name is scanned exactly when it ends, in any letter case,
    with one of the extensions of the tuple. *)
Theorem is_image_any_case exts file :
  is_image exts file = true ↔
  ∃ stem ext, file = stem +:+ ext ∧ PyStr.lower ext ∈ exts.
Proof.
  unfold is_image. rewrite endswith_any_true. split.
  - intros (e & He & Hend). unfold PyStr.endswith in Hend.
    apply bool_decide_eq_true in Hend as [k Hk].
    rewrite chars_lower in Hk.
    apply fmap_app_inv in Hk as (l1 & l2 & -> & He' & Hfile).
    exists (String.string_of_list_ascii l1), (String.string_of_list_ascii l2).
    split.
    + apply chars_inj. by rewrite chars_app, !chars_of_list.
    + assert (PyStr.lower (String.string_of_list_ascii l2) = e) as ->; [|done].
      apply chars_inj. by rewrite chars_lower, chars_of_list.
  - intros (stem & ext & -> & He). exists (PyStr.lower ext).
    split; [done|]. rewrite lower_app. apply endswith_app.
Qed.

(** X2.  The paths of a scan are distinct when [os.walk] lists every
    directory once, a directory lists every name once, and joining
    tells the listed files apart. *)
Theorem scan_images_NoDup exts walk :
  NoDup (walk.*1.*1) →
  (∀ entry, entry ∈ walk → NoDup entry.2) →
  (∀ e1 e2 f1 f2,
     e1 ∈ walk → e2 ∈ walk → f1 ∈ e1.2 → f2 ∈ e2.2 →
     join e1.1.1 f1 = join e2.1.1 f2 → e1.1.1 = e2.1.1 ∧ f1 = f2) →
  NoDup (scan_images join exts walk).
Proof.
  intros Hroots Hnames Hinj.
  assert (∀ e1 e2, e1 ∈ walk → e2 ∈ walk → e1.1.1 = e2.1.1 → e1 = e2) as Hentry.
  { intros e1 e2 [i Hi]%list_elem_of_lookup [j Hj]%list_elem_of_lookup Heq.
    assert (i = j) as ->; [|congruence].
    eapply (NoDup_lookup _ i j (e1.1.1)); [done | |].
    - by rewrite !list_lookup_fmap, Hi.
    - by rewrite !list_lookup_fmap, Hj, Heq. }
  assert (NoDup walk) as Hwalk.
  { by eapply NoDup_fmap_1, NoDup_fmap_1. }
  unfold scan_images. apply NoDup_bind; [| |done].
  - intros e1 e2 p He1 He2
      (f1 & -> & [_ Hf1]%list_elem_of_filter)%list_elem_of_fmap
      (f2 & Heq & [_ Hf2]%list_elem_of_filter)%list_elem_of_fmap.
    apply Hentry; try done. by destruct (Hinj e1 e2 f1 f2).
  - intros entry He. apply NoDup_fmap_2_strong; [|by apply NoDup_filter, Hnames].
    intros f1 f2 [_ Hf1]%list_elem_of_filter [_ Hf2]%list_elem_of_filter Heq.
    by destruct (Hinj entry entry f1 f2).
Qed.

(** X3.  The stand-alone detector scans a sub-sequence of what the gallery
    program scans: the gallery tuple holds the same extensions and
    [.heic] besides. *)
Theorem detector_scan_in_gallery_scan walk :
  scan_images join Detector.IMAGE_EXTENSIONS walk
    `sublist_of` scan_images join Gallery.IMAGE_EXTENSIONS walk ∧
  ∀ file,
    is_image Gallery.IMAGE_EXTENSIONS file =
    is_image Detector.IMAGE_EXTENSIONS file ||
    PyStr.endswith (PyStr.lower file) ".heic".
Proof.
  assert (∀ file,
    is_image Gallery.IMAGE_EXTENSIONS file =
    is_image Detector.IMAGE_EXTENSIONS file ||
    PyStr.endswith (PyStr.lower file) ".heic") as Hsame.
  { intros file. unfold is_image, PyStr.endswith_any,
      Gallery.IMAGE_EXTENSIONS, Detector.IMAGE_EXTENSIONS. cbn [existsb].
    repeat match goal with
           | |- context [PyStr.endswith ?s ?e] =>
               destruct (PyStr.endswith s e); try done
           end. }
  split; [|done]. apply scan_images_sublist.
  intros file Hfile. by rewrite Hsame, Hfile.
Qed.
End scan_facts.

(** ** When the report is empty *)
Section empty_report_facts.
Context (hs : md5_hasher) (fs : filesystem) (t : Z).
Implicit Types (files rest : list path) (visited : gset path) (p q a b : path).

Lemma clusters_nil_far pm rest visited l1 l2 a b :
  NoDup rest → clusters pm t rest visited = [] →
  rest = l1 ++ a :: l2 → b ∈ l2 → a ∉ visited → b ∉ visited →
  ¬ within pm t a b.
Proof.
  intros Hnd. revert visited l1.
  induction rest as [|fi rest IH]; intros visited l1 Hnil Hrest Hb Ha Hbv Hw.
  { by destruct l1. }
  apply NoDup_cons in Hnd as [Hfi Hnd]. cbn [clusters] in Hnil.
  destruct (decide (fi ∈ visited)) as [Hv|Hv].
  { destruct l1 as [|x l1]; simplify_eq/=; [done|]. by eapply IH. }
  destruct (decide (1 < length (fi :: joiners pm t fi rest ({[fi]} ∪ visited)))%nat)
    as [|Hlen]; [done|].
  assert (joiners pm t fi rest ({[fi]} ∪ visited) = []) as Hms.
  { destruct (joiners _ _ _ _ _); [done | simpl in Hlen; lia]. }
  rewrite Hms in Hnil. clear Hlen.
  destruct l1 as [|x l1]; simplify_eq/=.
  - assert (b ∈ joiners pm t a l2 ({[a]} ∪ visited)) as Hin;
      [|rewrite Hms in Hin; by apply elem_of_nil in Hin].
    apply elem_of_joiners. split_and!; [done | | done].
    assert (b ≠ a) by (by intros ->). set_solver.
  - eapply (IH Hnd _ l1); [done | done | done | | | done].
    + assert (a ≠ x); [|set_solver]. intros ->. apply Hfi. set_solver.
    + assert (b ≠ x); [|set_solver]. intros ->. apply Hfi. set_solver.
Qed.

Lemma elem_of_ordered {A} (l : list A) x y :
  x ∈ l → y ∈ l → x ≠ y →
  (∃ l1 l2, l = l1 ++ x :: l2 ∧ y ∈ l2) ∨ (∃ l1 l2, l = l1 ++ y :: l2 ∧ x ∈ l2).
Proof.
  intros (l1 & l2 & ->)%list_elem_of_split Hy Hne.
  apply elem_of_app in Hy as [Hy|Hy].
  - right. apply list_elem_of_split in Hy as (k1 & k2 & ->).
    exists k1, (k2 ++ x :: l2). split; [by rewrite <-app_assoc | set_solver].
  - left. exists l1, l2. split; [done | set_solver].
Qed.

Lemma exact_rows_nil (exact : list (string * list path)) :
  (∀ hp, hp ∈ exact → hp.2 ≠ []) → exact_rows exact = [] → exact = [].
Proof.
  intros Hne Hnil. destruct exact as [|[h paths] exact]; [done|].
  destruct paths as [|p paths]; [by destruct (Hne (h, []) ltac:(by left))|].
  unfold exact_rows in Hnil. by rewrite bind_cons in Hnil.
Qed.

Lemma visual_rows_nil (gs : list (list path)) :
  (∀ g, g ∈ gs → g ≠ []) → visual_rows gs = [] → gs = [].
Proof.
  intros Hne Hnil. destruct gs as [|g gs]; [done|].
  destruct g as [|p g]; [by destruct (Hne [] ltac:(by left))|].
  unfold visual_rows in Hnil. by rewrite imap_cons, bind_cons in Hnil.
Qed.

Lemma exact_groups_nil_iff files :
  NoDup files →
  exact_groups hs fs files = [] ↔
  ∀ p q h, p ∈ files → q ∈ files → p ≠ q →
    get_file_hash hs fs p default_chunk_size = Some h →
    get_file_hash hs fs q default_chunk_size = Some h → h = "".
Proof.
  intros Hnd. split.
  - intros Hnil p q h Hp Hq Hne Hdp Hdq.
    destruct (decide (h = "")) as [|Hh]; [done|].
    destruct (exact_groups_pair hs fs files h p q) as [Hin _]; try done.
    rewrite Hnil in Hin. by apply elem_of_nil in Hin.
  - intros Hall. destruct (exact_groups hs fs files) as [|[h paths] l] eqn:E;
      [done|].
    assert ((h, paths) ∈ exact_groups hs fs files) as Hin by (rewrite E; by left).
    pose proof Hin as (Hh & Hlen & ->)%exact_groups_entry.
    destruct (digest_class hs fs h files) as [|p [|q l']] eqn:Ec;
      simpl in Hlen; [lia | lia |].
    assert (NoDup (digest_class hs fs h files)) as Hndc by by apply NoDup_filter.
    rewrite Ec in Hndc. apply NoDup_cons in Hndc as [Hpq _].
    assert (p ∈ digest_class hs fs h files) as [? ?]%elem_of_digest_class
      by (rewrite Ec; by left).
    assert (q ∈ digest_class hs fs h files) as [? ?]%elem_of_digest_class
      by (rewrite Ec; right; by left).
    destruct Hh. apply (Hall p q); try done. intros ->. apply Hpq. by left.
Qed.

Lemma visual_groups_nil_iff files :
  NoDup files →
  visual_groups hs fs t files = Some [] ↔
  ∀ p q sp sq, p ∈ files → q ∈ files → p ≠ q →
    get_phash fs p = Some sp → get_phash fs q = Some sq → t < hamming sp sq.
Proof.
  intros Hnd. split.
  - rewrite visual_groups_clusters. intros [= Hnil] p q sp sq Hp Hq Hne Hsp Hsq.
    rewrite phash_map_keys in Hnil by done.
    assert (NoDup (decoded fs files)) as Hndd by by apply NoDup_filter.
    assert (p ∈ decoded fs files) as Hpd
      by (apply elem_of_decoded; split; [done | by eexists]).
    assert (q ∈ decoded fs files) as Hqd
      by (apply elem_of_decoded; split; [done | by eexists]).
    destruct (decide (hamming sp sq ≤ t)) as [Hd|]; [exfalso | lia].
    destruct (elem_of_ordered _ p q Hpd Hqd Hne)
      as [(l1 & l2 & Hl & Hin)|(l1 & l2 & Hl & Hin)].
    + eapply (clusters_nil_far _ _ ∅ l1 l2 p q Hndd Hnil Hl Hin);
        [set_solver | set_solver |].
      apply within_files. split_and!; try done. by exists sp, sq.
    + eapply (clusters_nil_far _ _ ∅ l1 l2 q p Hndd Hnil Hl Hin);
        [set_solver | set_solver |].
      apply within_files. split_and!; try done. exists sq, sp.
      split_and!; try done. by rewrite hamming_comm.
  - intros Hfar.
    destruct (visual_groups hs fs t files) as [[|g gs]|] eqn:E; [done | |].
    + exfalso.
      destruct (visual_groups_group hs fs t files (g :: gs) g E)
        as (seed & ms & s0 & -> & Hms & Hndg & Hsub & Hs0 & Hstar); [by left|].
      destruct ms as [|m ms]; [done|].
      destruct (Hstar m) as (sm & Hsm & Hd); [by left|].
      apply NoDup_cons in Hndg as [Hseed _].
      assert (t < hamming s0 sm); [|lia].
      apply (Hfar seed m); try done.
      * eapply elem_of_sublist; [|done]. by left.
      * eapply elem_of_sublist; [|done]. right. by left.
      * intros ->. apply Hseed. by left.
    + by rewrite visual_groups_clusters in E.
Qed.

(** X4.  On a scan of distinct paths the report is empty exactly when no
    two files have the same non-empty digest and no two decoded files are
    within the threshold of each other. *)
Theorem report_empty_iff files :
  NoDup files →
  analyze hs fs t files = Some [] ↔
  (∀ p q h, p ∈ files → q ∈ files → p ≠ q →
     get_file_hash hs fs p default_chunk_size = Some h →
     get_file_hash hs fs q default_chunk_size = Some h → h = "") ∧
  (∀ p q sp sq, p ∈ files → q ∈ files → p ≠ q →
     get_phash fs p = Some sp → get_phash fs q = Some sq → t < hamming sp sq).
Proof.
  intros Hnd.
  rewrite <-exact_groups_nil_iff, <-visual_groups_nil_iff by done.
  rewrite analyze_rows. split.
  - destruct (visual_groups hs fs t files) as [gs|] eqn:E; [|done].
    intros [= [Hex Hvis]%app_eq_nil]. split.
    + apply exact_rows_nil; [|done].
      intros [h paths] (_ & Hlen & _)%exact_groups_entry. simpl.
      intros ->. simpl in Hlen. lia.
    + f_equal. apply visual_rows_nil; [|done]. intros g Hg ->.
      by destruct (visual_groups_group hs fs t files gs [] E Hg)
        as (? & ? & ? & ? & _).
  - intros [-> ->]. done.
Qed.
End empty_report_facts.

(** ** Cleaning: the two loops *)
Section clean_loop_facts.
Implicit Types (d : disk) (dfs : list path) (f : path)
  (grouped : list (string * list row)).

(** The files the loop over the groups may delete. *)
Local Abbreviation victims grouped :=
  (mjoin ((λ g : string * list row, tail (file_path <$> g.2)) <$> grouped)).

Lemma delete_loop_dry dfs d n : delete_loop true dfs d n = (d, Some n).
Proof.
  induction dfs as [|f dfs IH]; [done|]. simpl. by destruct (decide _).
Qed.

Lemma delete_loop_frame dry dfs d n :
  locked (delete_loop dry dfs d n).1 = locked d ∧
  present (delete_loop dry dfs d n).1 ⊆ present d ∧
  present d ∖ list_to_set dfs ⊆ present (delete_loop dry dfs d n).1.
Proof.
  revert d n. induction dfs as [|f dfs IH]; intros d n; simpl.
  { split_and!; [done | done | set_solver]. }
  destruct (decide (f ∈ present d)) as [Hf|Hf].
  - destruct dry.
    + destruct (IH d n) as (? & ? & ?). split_and!; [done | done | set_solver].
    + destruct (decide (f ∈ locked d)).
      * split_and!; [done | done | set_solver].
      * destruct (IH {| present := present d ∖ {[f]}; locked := locked d |} (S n))
          as (? & ? & ?). simpl in *. split_and!; [done | set_solver | set_solver].
  - destruct (IH d n) as (? & ? & ?). split_and!; [done | done | set_solver].
Qed.

Lemma size_inter_insert (P S : gset path) f :
  f ∈ P → size (P ∩ ({[f]} ∪ S)) = Datatypes.S (size ((P ∖ {[f]}) ∩ S)).
Proof.
  intros Hf.
  replace (P ∩ ({[f]} ∪ S)) with ({[f]} ∪ (P ∖ {[f]}) ∩ S).
  2:{ apply set_eq. intros x. destruct (decide (x = f)); set_solver. }
  rewrite size_union by set_solver. by rewrite size_singleton.
Qed.

Lemma size_inter_difference (P D : gset path) :
  size (P ∩ D) = (size P - size (P ∖ D))%nat.
Proof.
  pose proof (size_difference_alt P D) as Hdiff. rewrite Hdiff.
  assert (size (P ∩ D) ≤ size P)%nat; [|lia].
  apply subseteq_size. set_solver.
Qed.

Lemma size_inter_union (P A B : gset path) :
  (size (P ∩ A) + size ((P ∖ A) ∩ B))%nat = size (P ∩ (A ∪ B)).
Proof.
  rewrite <-size_union by set_solver. f_equal. apply set_eq. intros x.
  destruct (decide (x ∈ A)); set_solver.
Qed.

Lemma delete_loop_finished dfs d n :
  (∀ f, f ∈ dfs → f ∈ present d → f ∉ locked d) →
  delete_loop false dfs d n =
  ({| present := present d ∖ list_to_set dfs; locked := locked d |},
   Some (n + size (present d ∩ list_to_set dfs))%nat).
Proof.
  revert d n. induction dfs as [|f dfs IH]; intros [P L] n Hfree;
    cbn [delete_loop present locked] in *.
  { rewrite list_to_set_nil. f_equal; [f_equal; set_solver|]. f_equal.
    replace (P ∩ ∅) with (∅ : gset path) by set_solver.
    rewrite size_empty. lia. }
  rewrite list_to_set_cons. destruct (decide (f ∈ P)) as [Hf|Hf].
  - rewrite decide_False by (apply Hfree; [by left | done]).
    rewrite IH; cbn [present locked].
    2:{ intros f' Hf' Hin. apply Hfree; [by right | set_solver]. }
    rewrite size_inter_insert by done.
    f_equal; [f_equal; set_solver|]. f_equal. lia.
  - rewrite IH by (intros f' Hf' Hin; apply Hfree; [by right | done]).
    cbn [present locked].
    f_equal; [f_equal; set_solver|]. f_equal. f_equal. f_equal. set_solver.
Qed.

Lemma delete_loop_raised dfs d n f :
  f ∈ dfs → f ∈ present d → f ∈ locked d →
  (delete_loop false dfs d n).2 = None.
Proof.
  revert d n. induction dfs as [|f' dfs IH]; intros d n Hin Hp Hl.
  { by apply elem_of_nil in Hin. }
  simpl. destruct (decide (f' ∈ present d)) as [Hf'|Hf'].
  - destruct (decide (f' ∈ locked d)) as [|Hl']; [done|].
    apply elem_of_cons in Hin as [->|Hin]; [done|].
    apply IH; simpl; [done | | done].
    assert (f ≠ f') by (by intros ->). set_solver.
  - apply elem_of_cons in Hin as [->|Hin]; [done|]. by apply IH.
Qed.

Lemma group_loop_dry grouped d n :
  (∀ g, g ∈ grouped → g.2 ≠ []) → group_loop true grouped d n = (d, Some n).
Proof.
  induction grouped as [|[k rows] grouped IH]; intros Hne; [done|].
  simpl. destruct rows as [|r rows]; [by destruct (Hne (k, []) ltac:(by left))|].
  simpl. rewrite delete_loop_dry. apply IH. intros g Hg. apply Hne. by right.
Qed.

Lemma group_loop_frame dry grouped d n :
  locked (group_loop dry grouped d n).1 = locked d ∧
  present (group_loop dry grouped d n).1 ⊆ present d ∧
  present d ∖ list_to_set (victims grouped) ⊆
    present (group_loop dry grouped d n).1.
Proof.
  revert d n. induction grouped as [|[k rows] grouped IH]; intros d n.
  { simpl. split_and!; [done | done | set_solver]. }
  cbn [group_loop fmap list_fmap mjoin list_join snd].
  destruct rows as [|r rows]; [simpl; split_and!; [done | done | set_solver]|].
  cbn [fmap list_fmap tail].
  pose proof (delete_loop_frame dry (file_path <$> rows) d n) as (Hl & Hsub & Hsup).
  destruct (delete_loop dry (file_path <$> rows) d n) as [d' [n'|]]; simpl in *.
  - destruct (IH d' n') as (? & ? & ?).
    split_and!; [congruence | set_solver |].
    rewrite list_to_set_app_L. set_solver.
  - split_and!; [done | done |]. rewrite list_to_set_app_L. set_solver.
Qed.

Lemma group_loop_finished grouped d n :
  (∀ g, g ∈ grouped → g.2 ≠ []) →
  (∀ f, f ∈ victims grouped → f ∈ present d → f ∉ locked d) →
  group_loop false grouped d n =
  ({| present := present d ∖ list_to_set (victims grouped);
      locked := locked d |},
   Some (n + size (present d ∩ list_to_set (victims grouped)))%nat).
Proof.
  revert d n. induction grouped as [|[k rows] grouped IH]; intros [P L] n Hne Hfree.
  { cbn [group_loop fmap list_fmap mjoin list_join present locked].
    rewrite list_to_set_nil. f_equal; [f_equal; set_solver|]. f_equal.
    replace (P ∩ ∅) with (∅ : gset path) by set_solver.
    rewrite size_empty. lia. }
  cbn [group_loop fmap list_fmap mjoin list_join snd present locked] in *.
  destruct rows as [|r rows]; [by destruct (Hne (k, []) ltac:(by left))|].
  cbn [fmap list_fmap tail] in *.
  rewrite delete_loop_finished; cbn [present locked].
  2:{ intros f Hf. apply Hfree. set_solver. }
  rewrite IH; cbn [present locked].
  2:{ intros g Hg. apply Hne. by right. }
  2:{ intros f Hf Hin. apply Hfree; set_solver. }
  rewrite list_to_set_app_L. f_equal; [f_equal; set_solver|]. f_equal.
  rewrite <-Nat.add_assoc. f_equal. apply size_inter_union.
Qed.

Lemma group_loop_raised grouped d n f :
  f ∈ victims grouped → f ∈ present d → f ∈ locked d →
  (group_loop false grouped d n).2 = None.
Proof.
  revert d n. induction grouped as [|[k rows] grouped IH]; intros d n Hin Hp Hl.
  { by apply elem_of_nil in Hin. }
  cbn [group_loop fmap list_fmap mjoin list_join snd] in *.
  destruct rows as [|r rows]; [done|]. cbn [fmap list_fmap tail] in *.
  pose proof (delete_loop_frame false (file_path <$> rows) d n) as (Hl' & _ & Hsup).
  destruct (decide (f ∈ file_path <$> rows)) as [Hf|Hf].
  { pose proof (delete_loop_raised _ d n f Hf Hp Hl) as Hr.
    by destruct (delete_loop false (file_path <$> rows) d n) as [d' [n'|]]. }
  destruct (delete_loop false (file_path <$> rows) d n) as [d' [n'|]];
    simpl in *; [|done].
  apply IH; [set_solver | | congruence].
  apply Hsup. rewrite elem_of_difference, elem_of_list_to_set. done.
Qed.
End clean_loop_facts.

(** ** Cleaning: the groups of a frame *)
Section groupby_facts.
Implicit Types (df : list row) (key : string) (f : path).

Lemma elem_of_groupby df key rows :
  (key, rows) ∈ groupby_group_id df ↔
  key ∈ group_id <$> df ∧ rows = filter (λ r, group_id r = key) df.
Proof.
  unfold groupby_group_id. rewrite list_elem_of_fmap. split.
  - intros (k & [= -> ->] & Hk).
    rewrite merge_sort_Permutation, elem_of_remove_dups in Hk. done.
  - intros [Hk ->]. exists key. split; [done|].
    by rewrite merge_sort_Permutation, elem_of_remove_dups.
Qed.

Lemma groupby_nonempty df g : g ∈ groupby_group_id df → g.2 ≠ [].
Proof.
  destruct g as [key rows]. intros [Hk ->]%elem_of_groupby. simpl.
  apply list_elem_of_fmap in Hk as (r & -> & Hr). intros Hnil.
  assert (r ∈ filter (λ r', group_id r' = group_id r) df) as Hin
    by by apply list_elem_of_filter.
  rewrite Hnil in Hin. by apply elem_of_nil in Hin.
Qed.

(** A file is a candidate when a row of type [exact_duplicate] names it
    and an earlier row of that type has the same group. *)
Lemma elem_of_delete_candidates df f :
  f ∈ delete_candidates df ↔
  ∃ key, f ∈ tail (file_path <$>
                   filter (λ r, group_id r = key)
                          (filter (λ r, type r = "exact_duplicate") df)).
Proof.
  unfold delete_candidates. rewrite list_elem_of_join. split.
  - intros (l & Hf & ([key rows] & -> & [_ ->]%elem_of_groupby)%list_elem_of_fmap).
    by exists key.
  - intros (key & Hf). eexists. split; [exact Hf|].
    apply list_elem_of_fmap.
    exists (key, filter (λ r, group_id r = key)
                   (filter (λ r, type r = "exact_duplicate") df)).
    split; [done|]. apply elem_of_groupby. split; [|done].
    destruct (filter (λ r, group_id r = key) _) as [|r0 l] eqn:E;
      [by apply elem_of_nil in Hf|].
    assert (r0 ∈ filter (λ r, group_id r = key)
                   (filter (λ r, type r = "exact_duplicate") df)) as Hr0
      by (rewrite E; by left).
    apply list_elem_of_filter in Hr0 as [<- Hr0].
    apply list_elem_of_fmap. by exists r0.
Qed.
End groupby_facts.

(** ** Cleaning: what a run does to the disk *)
Section clean_facts.
Implicit Types (df : list row) (d : disk) (f : path)
  (report : option (list row)).

Lemma clean_frame_loop dry df d :
  clean_frame dry df d =
  let res := group_loop dry
               (groupby_group_id (filter (λ r, type r = "exact_duplicate") df))
               d 0 in
  (res.1, match res.2 with Some n => Finished n | None => Raised end).
Proof.
  unfold clean_frame. by destruct (group_loop _ _ _ _) as [d' [n|]].
Qed.

Lemma clean_frame_nil dry d : clean_frame dry [] d = (d, Finished 0).
Proof. by vm_compute. Qed.

(** The gallery program and the script leave the same disk. *)
Lemma clean_exact_duplicates_disk dry df d :
  (clean_exact_duplicates dry (Some df) d).1 = (clean_frame dry df d).1 ∧
  (clean_exact_duplicates_script dry (Some df) d).1 = (clean_frame dry df d).1.
Proof.
  split; [|done]. destruct df as [|r df]; [|done].
  by rewrite clean_frame_nil.
Qed.

Lemma clean_frame_frame dry df d :
  locked (clean_frame dry df d).1 = locked d ∧
  present (clean_frame dry df d).1 ⊆ present d ∧
  present d ∖ list_to_set (delete_candidates df) ⊆
    present (clean_frame dry df d).1.
Proof. rewrite clean_frame_loop. apply group_loop_frame. Qed.

Lemma clean_frame_finished df d :
  (∀ f, f ∈ delete_candidates df → f ∈ present d → f ∉ locked d) →
  clean_frame false df d =
  ({| present := present d ∖ list_to_set (delete_candidates df);
      locked := locked d |},
   Finished (size (present d ∩ list_to_set (delete_candidates df)))).
Proof.
  intros Hfree. rewrite clean_frame_loop.
  rewrite group_loop_finished; [done | apply groupby_nonempty | done].
Qed.

Lemma clean_frame_raised df d f :
  f ∈ delete_candidates df → f ∈ present d → f ∈ locked d →
  clean_frame false df d = ((clean_frame false df d).1, Raised).
Proof.
  intros Hf Hp Hl. rewrite clean_frame_loop. cbn zeta. cbn [fst].
  by rewrite (group_loop_raised _ d 0 f Hf Hp Hl).
Qed.

Lemma candidate_row df f :
  f ∈ delete_candidates df →
  ∃ r, r ∈ df ∧ type r = "exact_duplicate" ∧ file_path r = f.
Proof.
  intros (key & Hf)%elem_of_delete_candidates.
  assert (f ∈ file_path <$> filter (λ r, group_id r = key)
                (filter (λ r, type r = "exact_duplicate") df)) as Hin.
  { destruct (file_path <$> _) as [|x l]; [done | by right]. }
  apply list_elem_of_fmap in Hin as (r & -> & [_ [? ?]%list_elem_of_filter]%list_elem_of_filter).
  by exists r.
Qed.

(** X5.  With [DRY_RUN] set no clean-up touches the disk, and the shared
    body ends with a counter of 0. *)
Theorem clean_dry_run report df d :
  (clean_exact_duplicates true report d).1 = d ∧
  (clean_exact_duplicates_script true report d).1 = d ∧
  clean_frame true df d = (d, Finished 0).
Proof.
  assert (∀ df', clean_frame true df' d = (d, Finished 0)) as Hdry.
  { intros df'. rewrite clean_frame_loop.
    rewrite group_loop_dry; [done | apply groupby_nonempty]. }
  split_and!; [| |done].
  - destruct report as [[|r df']|]; [done | | done].
    unfold clean_exact_duplicates. by rewrite Hdry.
  - destruct report as [df'|]; [|done].
    unfold clean_exact_duplicates_script. by rewrite Hdry.
Qed.

(** X6.  However a clean-up ends, it creates no file and changes no
    permission, and a file that disappears is named by a row of type
    [exact_duplicate] that is not the first of its group: a file named
    by visual rows only is never deleted. *)
Theorem clean_deletes_only_candidates dry report d f :
  let d' := (clean_exact_duplicates dry report d).1 in
  locked d' = locked d ∧ present d' ⊆ present d ∧
  (f ∈ present d → f ∉ present d' →
   ∃ df r, report = Some df ∧ f ∈ delete_candidates df ∧
           r ∈ df ∧ type r = "exact_duplicate" ∧ file_path r = f).
Proof.
  destruct report as [df|]; [|by cbn].
  cbn zeta. destruct (clean_exact_duplicates_disk dry df d) as [-> _].
  destruct (clean_frame_frame dry df d) as (Hl & Hsub & Hsup).
  split_and!; [done | done |]. intros Hf Hgone.
  assert (f ∈ delete_candidates df) as Hc.
  { destruct (decide (f ∈ delete_candidates df)) as [|Hn]; [done|].
    destruct Hgone. apply Hsup.
    rewrite elem_of_difference, elem_of_list_to_set. done. }
  destruct (candidate_row df f Hc) as (r & ? & ? & ?). by exists df, r.
Qed.

(** X7.  When no candidate that exists is locked, a real run ends
    normally, the candidates are gone, nothing else is, and the counter
    is the number of files that disappeared. *)
Theorem clean_finishes df d :
  (∀ f, f ∈ delete_candidates df → f ∈ present d → f ∉ locked d) →
  ∃ d', clean_frame false df d =
          (d', Finished (size (present d) - size (present d'))) ∧
        present d' = present d ∖ list_to_set (delete_candidates df) ∧
        locked d' = locked d.
Proof.
  intros Hfree.
  exists {| present := present d ∖ list_to_set (delete_candidates df);
            locked := locked d |}.
  rewrite clean_frame_finished by done.
  split_and!; [|done|done]. cbn [present]. f_equal. f_equal.
  apply size_inter_difference.
Qed.

(** X8.  A real run is left by an exception exactly when some candidate
    exists and is locked. *)
Theorem clean_raises_iff df d :
  (clean_frame false df d).2 = Raised ↔
  ∃ f, f ∈ delete_candidates df ∧ f ∈ present d ∧ f ∈ locked d.
Proof.
  split.
  - intros Hr.
    destruct (decide (Exists (λ f, f ∈ present d ∧ f ∈ locked d)
                             (delete_candidates df))) as [Hex|Hno].
    + apply Exists_exists in Hex as (f & ? & ? & ?). by exists f.
    + rewrite clean_frame_finished in Hr; [done|].
      intros f Hf Hp Hl. apply Hno, Exists_exists. by exists f.
  - intros (f & Hf & Hp & Hl). by rewrite (clean_frame_raised df d f).
Qed.

(** X9.  A second run after a run that ended normally deletes nothing. *)
Theorem clean_twice df d d' n :
  clean_frame false df d = (d', Finished n) →
  clean_frame false df d' = (d', Finished 0).
Proof.
  intros Hrun.
  assert (∀ f, f ∈ delete_candidates df → f ∈ present d → f ∉ locked d) as Hfree.
  { intros f Hf Hp Hl. rewrite (clean_frame_raised df d f) in Hrun; done. }
  rewrite clean_frame_finished in Hrun by done. injection Hrun as <- _.
  rewrite clean_frame_finished; cbn [present locked].
  - f_equal; [f_equal; set_solver|]. f_equal.
    replace (_ ∩ _) with (∅ : gset path); [apply size_empty | set_solver].
  - intros f Hf Hin. set_solver.
Qed.
End clean_facts.

(** ** Cleaning the report of an analysis *)
Section clean_report_facts.
Context (hs : md5_hasher) (fs : filesystem) (t : Z).
Implicit Types (eg : list (string * list path)) (gs : list (list path))
  (files ps : list path) (p q f : path) (h : string) (d : disk).

Lemma filter_all {A} (P : A → Prop) `{∀ x, Decision (P x)} (l : list A) :
  (∀ x, x ∈ l → P x) → filter P l = l.
Proof.
  induction l as [|x l IH]; [done|]. intros Hl.
  rewrite filter_cons_True by (apply Hl; by left).
  f_equal. apply IH. intros y Hy. apply Hl. by right.
Qed.

Lemma filter_exact_report eg gs :
  filter (λ r, type r = "exact_duplicate") (exact_rows eg ++ visual_rows gs) =
  exact_rows eg.
Proof.
  rewrite filter_app, filter_all, filter_none; [by rewrite app_nil_r | |].
  - by intros r (n & g & _ & _ & ->)%elem_of_visual_rows.
  - by intros r (h & ps & _ & _ & ->)%elem_of_exact_rows.
Qed.

Lemma exact_rows_cons h ps eg :
  exact_rows ((h, ps) :: eg) =
  ((λ file, {| type := "exact_duplicate"; group_id := h; file_path := file |})
     <$> ps) ++ exact_rows eg.
Proof. unfold exact_rows. by rewrite bind_cons. Qed.

Lemma exact_rows_no_group eg h :
  h ∉ eg.*1 → filter (λ r, group_id r = h) (exact_rows eg) = [].
Proof.
  intros Hh. apply filter_none.
  intros r (h' & ps & Hin & _ & ->)%elem_of_exact_rows. simpl. intros ->.
  apply Hh. apply list_elem_of_fmap. by exists (h, ps).
Qed.

Lemma exact_rows_group eg h ps :
  NoDup eg.*1 → (h, ps) ∈ eg →
  file_path <$> filter (λ r, group_id r = h) (exact_rows eg) = ps.
Proof.
  induction eg as [|[h' ps'] eg IH]; intros Hnd Hin;
    [by apply elem_of_nil in Hin|].
  rewrite fmap_cons in Hnd. apply NoDup_cons in Hnd as [Hh' Hnd].
  rewrite exact_rows_cons, filter_app, fmap_app.
  apply elem_of_cons in Hin as [[= <- <-]|Hin].
  - rewrite filter_all by (by intros r (x & -> & _)%list_elem_of_fmap).
    rewrite exact_rows_no_group, app_nil_r by done.
    rewrite <-list_fmap_compose. clear. induction ps as [|x ps IH]; [done|].
    rewrite fmap_cons. f_equal. exact IH.
  - assert (h ≠ h') as Hne.
    { intros ->. apply Hh'. apply list_elem_of_fmap. by exists (h', ps). }
    rewrite filter_none; [by apply IH|].
    intros r (x & -> & _)%list_elem_of_fmap. simpl. congruence.
Qed.

(** The candidates of a report are the files of its exact groups but the
    first of each. *)
Lemma report_candidates eg gs f :
  NoDup eg.*1 →
  f ∈ delete_candidates (exact_rows eg ++ visual_rows gs) ↔
  ∃ h ps, (h, ps) ∈ eg ∧ f ∈ tail ps.
Proof.
  intros Hnd. rewrite elem_of_delete_candidates. split.
  - intros (key & Hf). rewrite filter_exact_report in Hf.
    destruct (decide (key ∈ eg.*1)) as [Hk|Hk].
    + apply list_elem_of_fmap in Hk as ([h ps] & -> & Hin). cbn [fst] in Hf.
      rewrite (exact_rows_group eg h ps) in Hf by done. by exists h, ps.
    + rewrite exact_rows_no_group in Hf by done. by apply elem_of_nil in Hf.
  - intros (h & ps & Hin & Hf). exists h.
    by rewrite filter_exact_report, (exact_rows_group eg h ps).
Qed.

Lemma analysis_candidates files rows p :
  NoDup files → analyze hs fs t files = Some rows →
  p ∈ delete_candidates rows ↔
  ∃ h, h ≠ "" ∧ p ∈ files ∧
       get_file_hash hs fs p default_chunk_size = Some h ∧
       head (digest_class hs fs h files) ≠ Some p.
Proof.
  intros Hnd. rewrite analyze_rows, visual_groups_clusters. intros [= <-].
  rewrite report_candidates by apply exact_groups_NoDup. split.
  - intros (h & ps & (Hh & Hlen & ->)%exact_groups_entry & Hp).
    assert (NoDup (digest_class hs fs h files)) as Hndc by by apply NoDup_filter.
    destruct (digest_class hs fs h files) as [|q l] eqn:E;
      [simpl in Hp; by apply elem_of_nil in Hp|].
    simpl in Hp. apply NoDup_cons in Hndc as [Hq _].
    assert (p ∈ digest_class hs fs h files) as [? ?]%elem_of_digest_class
      by (rewrite E; by right).
    exists h. split_and!; try done. rewrite E. simpl. intros [= ->]. done.
  - intros (h & Hh & Hp & Hd & Hhead). exists h, (digest_class hs fs h files).
    assert (p ∈ digest_class hs fs h files) as Hpc
      by by apply elem_of_digest_class.
    destruct (digest_class hs fs h files) as [|q l] eqn:E;
      [by apply elem_of_nil in Hpc|].
    simpl in *. apply elem_of_cons in Hpc as [->|Hpc]; [done|].
    split; [|done]. rewrite <-E. apply exact_groups_entry.
    split_and!; [done | | done]. rewrite E. destruct l; [|simpl; lia].
    by apply elem_of_nil in Hpc.
Qed.

End clean_report_facts.

(** ** From the folder to the report *)
Section folder_facts.
Context (hs : md5_hasher) (fs : filesystem) (t : Z)
  (join : string → string → string) (exts : list string).

(** X11.  Every row of the report of a folder names a file that the walk
    lists under one of its directories and whose name has an image
    extension; an exact row carries the digest of that file and a visual
    row names a file that decodes. *)
Theorem report_names_scanned_images walk rows r :
  analyze_folder hs fs t join exts walk = Some rows → r ∈ rows →
  (∃ entry file, entry ∈ walk ∧ file ∈ entry.2 ∧ is_image exts file = true ∧
                 file_path r = join entry.1.1 file) ∧
  (type r = "exact_duplicate" ∧
   get_file_hash hs fs (file_path r) default_chunk_size = Some (group_id r) ∨
   type r = "visual_duplicate" ∧ is_Some (get_phash fs (file_path r))).
Proof.
  unfold analyze_folder. rewrite analyze_rows.
  destruct (visual_groups hs fs t _) as [gs|] eqn:Egs; [|done].
  intros [= <-] [Hr|Hr]%elem_of_app.
  - apply elem_of_exact_rows in Hr as (h & ps & Hg & Hp & ->).
    destruct (exact_groups_member hs fs _ h ps _ Hg Hp) as [Hin Hd].
    split; [by apply elem_of_scan_images | by left].
  - apply elem_of_visual_rows in Hr as (n & g & Hn & Hp & ->).
    apply list_elem_of_lookup_2 in Hn.
    destruct (visual_groups_group hs fs t _ gs g Egs Hn)
      as (seed & ms & s0 & -> & _ & _ & Hsub & Hs0 & Hstar).
    split.
    + apply elem_of_scan_images. by eapply elem_of_sublist.
    + right. split; [done|]. cbn [file_path].
      apply elem_of_cons in Hp as [->|Hp]; [by eexists|].
      destruct (Hstar _ Hp) as (sx & -> & _). by eexists.
Qed.
End folder_facts.

(** ** The added properties at work *)

Lemma scan_images_NoDup_witness :
  NoDup (scan_images posix_join Gallery.IMAGE_EXTENSIONS DemoScan.walk).
Proof.
  apply (scan_images_NoDup posix_join Gallery.IMAGE_EXTENSIONS DemoScan.walk).
  - compute_done.
  - intros entry He. unfold DemoScan.walk in He. by_cases_in He; compute_done.
  - intros e1 e2 f1 f2 He1 He2 Hf1 Hf2 Heq. unfold DemoScan.walk in He1, He2.
    by_cases_in He1; by_cases_in He2; cbn [snd fst] in *;
      by_cases_in Hf1; by_cases_in Hf2; vm_compute in Heq;
      first [discriminate Heq | by split].
Defined.

Lemma report_empty_iff_witness : 5 < hamming 3 18446744073709551615.
Proof.
  assert (NoDup ["c.jpg"; "d.jpg"]) as Hnd by compute_done.
  destruct (proj1 (report_empty_iff Demo.plain_hasher Demo.gallery_fs 5
                     ["c.jpg"; "d.jpg"] Hnd)) as [_ Hfar]; [by vm_compute|].
  apply (Hfar "c.jpg" "d.jpg"); try reflexivity; try in_list. discriminate.
Defined.

Lemma clean_finishes_witness :
  ∃ d', clean_frame false DemoClean.report DemoClean.disk0 =
          (d', Finished (size (present DemoClean.disk0) - size (present d'))) ∧
        present d' =
          present DemoClean.disk0 ∖
          list_to_set (delete_candidates DemoClean.report) ∧
        locked d' = locked DemoClean.disk0.
Proof.
  apply (clean_finishes DemoClean.report DemoClean.disk0).
  intros f _ _. unfold DemoClean.disk0. cbn [locked]. apply not_elem_of_empty.
Defined.

Lemma clean_twice_witness :
  clean_frame false DemoClean.report DemoClean.disk1 =
  (DemoClean.disk1, Finished 0).
Proof.
  apply (clean_twice DemoClean.report DemoClean.disk0 DemoClean.disk1 2).
  by vm_compute.
Defined.


Lemma report_names_scanned_images_witness :
  ∃ entry file,
    entry ∈ DemoScan.walk ∧ file ∈ entry.2 ∧
    is_image Gallery.IMAGE_EXTENSIONS file = true ∧
    "/p/sub/a.jpg" = posix_join entry.1.1 file.
Proof.
  destruct (report_names_scanned_images Demo.plain_hasher DemoScan.fs
              SIMILARITY_THRESHOLD posix_join Gallery.IMAGE_EXTENSIONS
              DemoScan.walk
              [ {| type := "exact_duplicate"; group_id := "md5:xx";
                   file_path := "/p/a.jpg" |};
                {| type := "exact_duplicate"; group_id := "md5:xx";
                   file_path := "/p/sub/a.jpg" |};
                {| type := "visual_duplicate"; group_id := "visual_group_0";
                   file_path := "/p/a.jpg" |};
                {| type := "visual_duplicate"; group_id := "visual_group_0";
                   file_path := "/p/B.PNG" |};
                {| type := "visual_duplicate"; group_id := "visual_group_0";
                   file_path := "/p/sub/a.jpg" |} ]
              {| type := "exact_duplicate"; group_id := "md5:xx";
                 file_path := "/p/sub/a.jpg" |})
    as [Hscan _]; [by vm_compute | in_list | exact Hscan].
Defined.

(** ** The largest file of a group *)
Section largest_facts.
Context (getsize : path → option nat).
Implicit Types (files : list path) (best r f : path).

Lemma max_by_size_Some best bs files r :
  max_by_size getsize best bs files = Some r →
  (r = best ∧ ∀ f, f ∈ files → ∃ s, getsize f = Some s ∧ (s ≤ bs)%nat) ∨
  (∃ l1 l2 sz,
     files = l1 ++ r :: l2 ∧ getsize r = Some sz ∧ (bs < sz)%nat ∧
     (∀ f, f ∈ l1 → ∃ s, getsize f = Some s ∧ (s < sz)%nat) ∧
     (∀ f, f ∈ l2 → ∃ s, getsize f = Some s ∧ (s ≤ sz)%nat)).
Proof.
  revert best bs. induction files as [|f files IH]; intros best bs Hr.
  { injection Hr as <-. left. split; [done|]. by intros f ?%elem_of_nil. }
  cbn [max_by_size] in Hr. destruct (getsize f) as [s|] eqn:Es; [|done].
  cbn [mbind option_bind] in Hr.
  destruct (decide (bs < s)%nat) as [Hlt|Hge].
  - right. destruct (IH _ _ Hr) as [[-> Hall]|(l1 & l2 & sz & -> & Hsz & ? & H1 & H2)].
    + exists [], files, s. split_and!; try done. by intros f' ?%elem_of_nil.
    + exists (f :: l1), l2, sz. split_and!; try done; [lia|].
      intros f' [->|Hf']%elem_of_cons; [|by apply H1]. exists s. split; [done | lia].
  - destruct (IH _ _ Hr) as [[-> Hall]|(l1 & l2 & sz & -> & Hsz & ? & H1 & H2)].
    + left. split; [done|]. intros f' [->|Hf']%elem_of_cons; [|by apply Hall].
      exists s. split; [done | lia].
    + right. exists (f :: l1), l2, sz. split_and!; try done.
      intros f' [->|Hf']%elem_of_cons; [|by apply H1]. exists s. split; [done | lia].
Qed.

Lemma max_by_size_None best bs files :
  max_by_size getsize best bs files = None ↔ ∃ f, f ∈ files ∧ getsize f = None.
Proof.
  revert best bs. induction files as [|f files IH]; intros best bs.
  { split; [done | by intros (f & ?%elem_of_nil & _)]. }
  cbn [max_by_size]. destruct (getsize f) as [s|] eqn:Es; cbn [mbind option_bind].
  - destruct (decide (bs < s)%nat); rewrite IH; split.
    + intros (f' & ? & ?). exists f'. split; [by right | done].
    + intros (f' & [->|?]%elem_of_cons & ?); [congruence | by exists f'].
    + intros (f' & ? & ?). exists f'. split; [by right | done].
    + intros (f' & [->|?]%elem_of_cons & ?); [congruence | by exists f'].
  - split; [|done]. intros _. exists f. split; [by left | done].
Qed.

(** X12.  [get_largest_file] raises exactly on an empty group or when the
    size of some file cannot be read; otherwise it returns a file of the
    group that no other file exceeds in size, and the first such file:
    every file before it is strictly smaller. *)
Theorem get_largest_file_spec files :
  (get_largest_file getsize files = None ↔
   files = [] ∨ ∃ f, f ∈ files ∧ getsize f = None) ∧
  (∀ best, get_largest_file getsize files = Some best →
     ∃ l1 l2 sz,
       files = l1 ++ best :: l2 ∧ getsize best = Some sz ∧
       (∀ f, f ∈ l1 → ∃ s, getsize f = Some s ∧ (s < sz)%nat) ∧
       (∀ f, f ∈ l2 → ∃ s, getsize f = Some s ∧ (s ≤ sz)%nat)).
Proof.
  destruct files as [|f files].
  { split; [split; [by left | done] | done]. }
  cbn [get_largest_file]. destruct (getsize f) as [s|] eqn:Es;
    cbn [mbind option_bind].
  - split.
    + rewrite max_by_size_None. split.
      * intros (f' & ? & ?). right. exists f'. split; [by right | done].
      * intros [?|(f' & [->|?]%elem_of_cons & ?)]; [done | congruence | by exists f'].
    + intros best [[-> Hall]|(l1 & l2 & sz & -> & Hsz & ? & H1 & H2)]%max_by_size_Some.
      * exists [], files, s. split_and!; try done. by intros f' ?%elem_of_nil.
      * exists (f :: l1), l2, sz. split_and!; try done.
        intros f' [->|Hf']%elem_of_cons; [|by apply H1]. exists s. split; [done | lia].
  - split; [|done]. split; [|done]. intros _. right. exists f.
    split; [by left | done].
Qed.
End largest_facts.

(** ** The tests on paths and on names *)
Section guard_facts.
Implicit Types (base sep p s file : string).

Lemma startswith_true s prefix :
  PyStr.startswith s prefix = true ↔ PyStr.chars prefix `prefix_of` PyStr.chars s.
Proof. unfold PyStr.startswith. apply bool_decide_eq_true. Qed.

Lemma app_empty_r s : s +:+ "" = s.
Proof.
  induction s as [|c s IH]; [done|].
  change (String c (s +:+ "") = String c s). by f_equal.
Qed.

(** X13.  A path that [move_to_folder] takes as already sorted is also
    skipped by the test of [sort_all_media]; the converse fails: what
    [sort_all_media] skips includes every path that merely continues the
    output path without a separator (a sibling folder whose name starts
    with the output folder's name), which [move_to_folder] does not take
    as sorted. *)
Theorem sorted_guards base sep p s :
  (already_sorted p base sep = true → skipped_root p base = true) ∧
  (s ≠ "" → PyStr.startswith s sep = false →
   skipped_root (base +:+ s) base = true ∧
   already_sorted (base +:+ s) base sep = false).
Proof.
  unfold already_sorted, skipped_root. split.
  - intros [Hpre| ->%bool_decide_eq_true]%orb_true_iff.
    + apply startswith_true. apply startswith_true in Hpre.
      rewrite chars_app in Hpre. by eapply prefix_app_l.
    + by apply startswith_true.
  - intros Hs Hsep. split.
    + apply startswith_true. rewrite chars_app. by apply prefix_app_r.
    + apply orb_false_iff. split.
      * apply not_true_iff_false. intros Hpre%startswith_true.
        rewrite !chars_app in Hpre. apply prefix_app_inv in Hpre.
        apply startswith_true in Hpre. congruence.
      * apply bool_decide_eq_false. intros E. apply Hs.
        rewrite <-(app_empty_r base) in E at 2.
        by apply (inj (String.app base)) in E.
Qed.

Lemma endswith_true s e :
  PyStr.endswith s e = true ↔ PyStr.chars e `suffix_of` PyStr.chars s.
Proof. unfold PyStr.endswith. apply bool_decide_eq_true. Qed.

Lemma image_video_apart file :
  PyStr.endswith_any file Gallery.IMAGE_EXTENSIONS = true →
  PyStr.endswith_any file Gallery.VIDEO_EXTENSIONS = false.
Proof.
  intros (e1 & He1 & H1%endswith_true)%endswith_any_true.
  apply not_true_iff_false.
  intros (e2 & He2 & H2%endswith_true)%endswith_any_true.
  assert (Forall (λ a, Forall (λ b,
            ¬ PyStr.chars a `suffix_of` PyStr.chars b ∧
            ¬ PyStr.chars b `suffix_of` PyStr.chars a)
            Gallery.VIDEO_EXTENSIONS) Gallery.IMAGE_EXTENSIONS) as Hapart
    by compute_done.
  rewrite Forall_forall in Hapart. specialize (Hapart e1 He1).
  rewrite Forall_forall in Hapart. destruct (Hapart e2 He2) as [Hn1 Hn2].
  destruct (suffix_weak_total _ _ _ H1 H2); done.
Qed.

(** X14.  [sort_all_media] handles a file as an image exactly when its
    name has an image extension and as a video exactly when it has a
    video extension: no name has both, so the order of the two tests does
    not matter and no file is counted twice. *)
Theorem classify_spec file :
  (classify file = Some Image ↔ is_image Gallery.IMAGE_EXTENSIONS file = true) ∧
  (classify file = Some Video ↔ is_image Gallery.VIDEO_EXTENSIONS file = true) ∧
  (classify file = None ↔
   is_image Gallery.IMAGE_EXTENSIONS file = false ∧
   is_image Gallery.VIDEO_EXTENSIONS file = false).
Proof.
  unfold classify, is_image. cbn zeta.
  pose proof (image_video_apart (PyStr.lower file)) as Hapart.
  destruct (PyStr.endswith_any (PyStr.lower file) Gallery.IMAGE_EXTENSIONS);
    [rewrite Hapart by done; naive_solver|].
  destruct (PyStr.endswith_any (PyStr.lower file) Gallery.VIDEO_EXTENSIONS);
    naive_solver.
Qed.
End guard_facts.

(** ** Looking for a free destination *)
Section destination_facts.
Context (join : string → string → string) (P : gset path)
  (target name ext : string).
Implicit Types (d : path) (c k fuel : nat).

Local Abbreviation cand k := (join target (numbered name ext k)).
Local Abbreviation loop fuel d c :=
  (free_destination fuel join P target name ext d c).

Lemma numbered_inj j k : numbered name ext j = numbered name ext k → j = k.
Proof.
  unfold numbered. intros E.
  apply (inj (String.app name)), (inj (String.app "_")) in E.
  apply (f_equal PyStr.chars) in E. rewrite !chars_app in E.
  apply app_inv_tail, chars_inj in E. by apply (inj pretty) in E.
Qed.

Lemma loop_free fuel d c : d ∉ P → loop (S fuel) d c = Some d.
Proof. intros Hd. cbn [free_destination]. by rewrite decide_False. Qed.

Lemma loop_run k fuel d c :
  d ∈ P → (∀ j, c ≤ j < c + k → cand j ∈ P)%nat → cand (c + k) ∉ P →
  (k + 1 < fuel)%nat → loop fuel d c = Some (cand (c + k)).
Proof.
  revert fuel d c. induction k as [|k IH]; intros fuel d c Hd Hbusy Hfree Hfuel.
  - destruct fuel as [|[|fuel]]; [lia | lia |].
    cbn [free_destination]. rewrite decide_True by done.
    rewrite Nat.add_0_r in Hfree |- *. by rewrite decide_False.
  - destruct fuel as [|fuel]; [lia|].
    cbn [free_destination]. rewrite decide_True by done.
    replace (c + S k)%nat with (S c + k)%nat in * by lia.
    apply IH; [apply Hbusy; lia | | done | lia].
    intros j Hj. apply Hbusy. lia.
Qed.

Lemma least_free (Q : nat → Prop) `{∀ n, Decision (Q n)} n :
  Q n → ∃ k, (k ≤ n)%nat ∧ Q k ∧ ∀ j, (j < k)%nat → ¬ Q j.
Proof.
  induction n as [n IH] using lt_wf_ind. intros Hn.
  destruct (decide (Exists Q (seq 0 n))) as [Hex|Hno].
  - apply Exists_exists in Hex as (j & Hj%elem_of_seq & HQ).
    destruct (IH j) as (k & ? & ? & ?); [lia | done |].
    exists k. split_and!; [lia | done | done].
  - exists n. split_and!; [done | done |]. intros j Hj HQ.
    apply Hno, Exists_exists. exists j. split; [|done]. apply elem_of_seq. lia.
Qed.

(** X15.  When joining tells the numbered names apart, the loop ends
    within as many turns as there are existing paths plus one, whatever
    fuel above that it is given; the destination it returns does not
    exist; it is the plain name when that is free, and otherwise the
    numbered name with the least counter, from 1 on, that is free. *)
Theorem free_destination_spec filename :
  (∀ j k, cand j = cand k → numbered name ext j = numbered name ext k) →
  ∃ dest,
    (∀ fuel, (S (size P) < fuel)%nat →
       loop fuel (join target filename) 1 = Some dest) ∧
    dest ∉ P ∧
    (join target filename ∉ P → dest = join target filename) ∧
    (join target filename ∈ P →
     ∃ k, (1 ≤ k ≤ S (size P))%nat ∧ dest = cand k ∧
          ∀ j, (1 ≤ j < k)%nat → cand j ∈ P).
Proof.
  intros Hinj.
  destruct (decide (join target filename ∈ P)) as [Hin|Hout].
  2:{ exists (join target filename). split_and!; [|done|done|done].
      intros [|fuel] ?; [lia|]. by apply loop_free. }
  assert (∃ k, (k ≤ size P)%nat ∧ cand (1 + k) ∉ P) as (k0 & Hk0 & Hfree0).
  { destruct (decide (Exists (λ k, cand (1 + k) ∉ P) (seq 0 (S (size P)))))
      as [Hex|Hno].
    - apply Exists_exists in Hex as (k & Hk%elem_of_seq & ?).
      exists k. split; [lia | done].
    - exfalso.
      set (l := (λ k, cand (1 + k)) <$> seq 0 (S (size P))).
      assert (NoDup l) as Hnd.
      { apply NoDup_fmap_2_strong; [|apply NoDup_seq].
        intros j k _ _ E. apply Hinj, numbered_inj in E. lia. }
      assert (list_to_set l ⊆ P) as Hsub.
      { intros x (k & -> & Hk)%elem_of_list_to_set%list_elem_of_fmap.
        destruct (decide (cand (1 + k) ∈ P)) as [|Hn]; [done|].
        destruct Hno. apply Exists_exists. by exists k. }
      apply subseteq_size in Hsub.
      pose proof (size_list_to_set (C:=gset path) l Hnd) as Hlen.
      rewrite Hlen in Hsub. unfold l in Hsub.
      rewrite length_fmap, length_seq in Hsub. lia. }
  destruct (least_free (λ k, cand (1 + k) ∉ P) k0 Hfree0)
    as (k & Hk & Hfree & Hleast).
  exists (cand (1 + k)). split_and!; [|done|done|].
  - intros fuel Hfuel. apply loop_run; [done | | done | lia].
    intros j Hj. destruct (decide (cand j ∈ P)) as [|Hn]; [done|].
    destruct (Hleast (j - 1)%nat); [lia|].
    by replace (1 + (j - 1))%nat with j by lia.
  - intros _. exists (1 + k)%nat. split; [lia|]. split; [done|].
    intros j Hj. destruct (decide (cand j ∈ P)) as [|Hn]; [done|].
    destruct (Hleast (j - 1)%nat); [lia|].
    by replace (1 + (j - 1))%nat with j by lia.
Qed.
End destination_facts.

Lemma posix_join_relative_inj a b1 b2 :
  a ≠ "" → PyStr.endswith a "/" = false →
  PyStr.startswith b1 "/" = false → PyStr.startswith b2 "/" = false →
  posix_join a b1 = posix_join a b2 → b1 = b2.
Proof.
  intros Ha Hend H1 H2. unfold posix_join.
  rewrite H1, H2, Hend, bool_decide_eq_false_2 by done. cbn [orb].
  intros E. by apply (inj (String.app a)), (inj (String.app "/")) in E.
Qed.

Lemma free_destination_spec_witness :
  ∃ dest,
    (∀ fuel, (S (size DemoMove.taken) < fuel)%nat →
       free_destination fuel posix_join DemoMove.taken "/out/2020/01"
         "a" ".jpg" (posix_join "/out/2020/01" "a.jpg") 1 = Some dest) ∧
    dest ∉ DemoMove.taken ∧
    (posix_join "/out/2020/01" "a.jpg" ∉ DemoMove.taken →
     dest = posix_join "/out/2020/01" "a.jpg") ∧
    (posix_join "/out/2020/01" "a.jpg" ∈ DemoMove.taken →
     ∃ k, (1 ≤ k ≤ S (size DemoMove.taken))%nat ∧
          dest = posix_join "/out/2020/01" (numbered "a" ".jpg" k) ∧
          ∀ j, (1 ≤ j < k)%nat →
               posix_join "/out/2020/01" (numbered "a" ".jpg" j)
                 ∈ DemoMove.taken).
Proof.
  apply (free_destination_spec posix_join DemoMove.taken "/out/2020/01"
           "a" ".jpg" "a.jpg").
  intros j k. apply posix_join_relative_inj; [done | by vm_compute | |].
  - unfold numbered, PyStr.startswith. by vm_compute.
  - unfold numbered, PyStr.startswith. by vm_compute.
Defined.

(** The loop at work: with [a.jpg] and [a_1.jpg] taken, the file goes to
    [a_2.jpg]. *)
Example free_destination_run :
  free_destination 4 posix_join DemoMove.taken "/out/2020/01" "a" ".jpg"
    (posix_join "/out/2020/01" "a.jpg") 1 = Some "/out/2020/01/a_2.jpg".
Proof. by vm_compute. Qed.

(** ** The decision on a reviewed group *)
Section review_facts.
Context (getsize : path → option nat).
Implicit Types (files group_files : list path) (sel : gset nat) (a : action).

Lemma imap_pair_others (v : nat) files (n : nat) (f : nat → path → nat * path) :
  (∀ i x, f i x = ((n + i)%nat, x)) →
  (filter (λ p, p.1 ≠ v) (imap f files)).*2 =
  if decide (n ≤ v)%nat then delete (v - n)%nat files else files.
Proof.
  revert n f. induction files as [|x files IH]; intros n f Hf.
  { by destruct (decide (n ≤ v)%nat). }
  assert (∀ i y, (f ∘ S) i y = ((S n + i)%nat, y)) as Hf'.
  { intros i y. unfold compose. rewrite Hf. f_equal. lia. }
  rewrite imap_cons, Hf, Nat.add_0_r, filter_cons. cbn [fst].
  destruct (decide (n ≠ v)) as [Hne|Heq%dec_stable].
  - rewrite fmap_cons, (IH (S n) (f ∘ S) Hf'). cbn [snd].
    destruct (decide (S n ≤ v)%nat), (decide (n ≤ v)%nat); try lia; [|done].
    by replace (v - n)%nat with (S (v - S n)) by lia.
  - subst v. rewrite (IH (S n) (f ∘ S) Hf').
    rewrite decide_False, decide_True by lia.
    by rewrite Nat.sub_diag.
Qed.

Lemma enumerate_others (v : nat) files :
  (filter (λ p, p.1 ≠ v) (enumerate files)).*2 = delete v files.
Proof.
  unfold enumerate. rewrite (imap_pair_others v files 0); [|done].
  rewrite decide_True by lia. by rewrite Nat.sub_0_r.
Qed.

Lemma imap_pair_paths (g : nat * path → call) files (f : nat → path → nat * path) :
  (∀ p, call_path (g p) = p.2) → (∀ i x, (f i x).2 = x) →
  call_path <$> (g <$> imap f files) = files.
Proof.
  intros Hg. revert f. induction files as [|x files IH]; intros f Hf; [done|].
  rewrite imap_cons, !fmap_cons, Hg, Hf. f_equal. apply IH.
  intros i y. apply Hf.
Qed.

Lemma enumerate_paths (g : nat * path → call) files :
  (∀ p, call_path (g p) = p.2) →
  call_path <$> (g <$> enumerate files) = files.
Proof. intros Hg. by apply imap_pair_paths. Qed.

Lemma imap_pair_ext (g h : nat * path → call) files (n : nat)
    (f : nat → path → nat * path) :
  (∀ i x, f i x = ((n + i)%nat, x)) →
  (∀ i x, (i < length files)%nat → g ((n + i)%nat, x) = h ((n + i)%nat, x)) →
  g <$> imap f files = h <$> imap f files.
Proof.
  revert n f. induction files as [|x files IH]; intros n f Hf Hgh; [done|].
  rewrite imap_cons, !fmap_cons, Hf. f_equal.
  { apply Hgh. cbn [length]. lia. }
  apply (IH (S n)).
  - intros i y. unfold compose. rewrite Hf. f_equal. lia.
  - intros i y Hi. replace (S n + i)%nat with (n + S i)%nat by lia.
    apply Hgh. cbn [length]. lia.
Qed.

Lemma imap_pair_snd files (f : nat → path → nat * path) :
  (∀ i x, (f i x).2 = x) → (imap f files).*2 = files.
Proof.
  revert f. induction files as [|x files IH]; intros f Hf; [done|].
  rewrite imap_cons, fmap_cons, Hf. f_equal. apply IH. intros i y. apply Hf.
Qed.

Lemma others_Permutation (x : path) files :
  NoDup files → x ∈ files → x :: filter (λ f, f ≠ x) files ≡ₚ files.
Proof.
  induction 1 as [|y files Hy Hnd IH]; [by intros ?%elem_of_nil|].
  rewrite filter_cons. intros [<-|Hin]%elem_of_cons.
  - rewrite decide_False by (by intros ?). f_equiv.
    clear IH. induction files as [|z files IH]; [done|].
    apply not_elem_of_cons in Hy as [? ?]. apply NoDup_cons in Hnd as [? ?].
    rewrite filter_cons, decide_True by done. f_equiv. by apply IH.
  - rewrite decide_True by (by intros ->). rewrite Permutation_swap.
    f_equiv. by apply IH.
Qed.

Lemma get_largest_file_elem files best :
  get_largest_file getsize files = Some best → best ∈ files.
Proof.
  destruct files as [|f files]; [done|]. cbn [get_largest_file].
  destruct (getsize f) as [s|]; [|done]. cbn [mbind option_bind].
  intros [[-> _]|(l1 & l2 & sz & -> & _)]%max_by_size_Some; [by left|].
  right. apply elem_of_app. right. by left.
Qed.

Lemma call_path_send2trash files : call_path <$> (send2trash <$> files) = files.
Proof. rewrite <-list_fmap_compose. apply list_fmap_id. Qed.

Lemma call_path_move_to_folder files :
  call_path <$> (move_to_folder <$> files) = files.
Proof. rewrite <-list_fmap_compose. apply list_fmap_id. Qed.

Lemma review_action_paths sel files a calls :
  NoDup files → review_action getsize sel files a = Some calls →
  call_path <$> calls ≡ₚ files.
Proof.
  intros Hnd. destruct a as [| | |v| |]; cbn [review_action].
  - intros [= <-]. by rewrite call_path_send2trash.
  - intros [= <-]. by rewrite call_path_move_to_folder.
  - destruct (get_largest_file getsize files) as [k|] eqn:Ek; [|done].
    intros [= <-]. rewrite fmap_cons, call_path_send2trash. cbn [call_path].
    apply others_Permutation; [done|]. by apply get_largest_file_elem.
  - destruct (files !! v) as [k|] eqn:Ek; [|done].
    intros [= <-]. rewrite fmap_cons, call_path_send2trash, enumerate_others.
    cbn [call_path]. symmetry. by apply delete_Permutation.
  - intros [= <-]. rewrite enumerate_paths; [done|].
    intros p. by destruct (decide _).
  - intros [= <-]. rewrite enumerate_paths; [done|].
    intros p. by destruct (decide _).
Qed.

Lemma review_action_nil sel files a calls :
  files ≠ [] → review_action getsize sel files a = Some calls → calls ≠ [].
Proof.
  intros Hne. destruct files as [|f files]; [done|].
  destruct a as [| | |v| |]; cbn [review_action].
  - by intros [= <-].
  - by intros [= <-].
  - destruct (get_largest_file _ _); [|done]. by intros [= <-].
  - destruct (_ !! _); [|done]. by intros [= <-].
  - by intros [= <-].
  - by intros [= <-].
Qed.

(** X16.  One turn of the review loop either leaves the group alone, when
    fewer than two of its files still exist or the window was closed
    without a choice, or makes exactly one call, a move or a trash, on
    every file of the group that still exists, and at least one call. *)
Theorem review_group_once exists_ sel group_files choice calls :
  NoDup group_files →
  review_group getsize exists_ sel group_files choice = Some calls →
  let files := filter (λ f, f ∈ exists_) group_files in
  ((length files < 2)%nat ∨ choice = None → calls = []) ∧
  ((2 ≤ length files)%nat → choice ≠ None →
   calls ≠ [] ∧ call_path <$> calls ≡ₚ files).
Proof.
  intros Hnd Hrun files. unfold review_group in Hrun. fold files in Hrun.
  destruct (decide (length files < 2)%nat) as [Hlt|Hge].
  { injection Hrun as <-. split; [done | lia]. }
  destruct choice as [a|]; last first.
  { injection Hrun as <-. split; [done|]. by intros _ []. }
  split; [by intros [?|?]|]. intros _ _. split.
  - apply (review_action_nil sel files a); [|done].
    intros E. rewrite E in Hge. cbn [length] in Hge. lia.
  - apply (review_action_paths sel files a); [|done].
    by apply NoDup_filter.
Qed.

(** X17.  With no box ticked, "keep selected" trashes every file of the
    group, as "delete all" does, and "delete selected" moves every file,
    as "skip" does. *)
Theorem nothing_ticked sel files :
  (∀ i, (i < length files)%nat → i ∉ sel) →
  review_action getsize sel files keep_selected =
    review_action getsize sel files delete_all ∧
  review_action getsize sel files delete_selected =
    review_action getsize sel files skip.
Proof.
  intros Hsel. cbn [review_action]. split; f_equal.
  - rewrite <-(imap_pair_snd files pair) at 2 by done.
    rewrite <-list_fmap_compose. unfold enumerate.
    apply (imap_pair_ext _ _ files 0); [done|].
    intros i x Hi. cbn [fst snd compose plus].
    by rewrite decide_False by (by apply Hsel).
  - rewrite <-(imap_pair_snd files pair) at 2 by done.
    rewrite <-list_fmap_compose. unfold enumerate.
    apply (imap_pair_ext _ _ files 0); [done|].
    intros i x Hi. cbn [fst snd compose plus].
    by rewrite decide_False by (by apply Hsel).
Qed.

(** X18.  In the standalone tool "keep best" and "keep this one" trash the
    other files only after the kept file was moved: when its move fails,
    the one call made is that move; when it succeeds, the calls are those
    of the gallery program, which trashes the other files either way. *)
Theorem standalone_trash_needs_move moved sel files a calls :
  a = keep_best ∨ (∃ v, a = keep_index v) →
  review_action_standalone getsize moved files a = Some calls →
  ∃ keep_file calls_gallery,
    review_action getsize sel files a = Some calls_gallery ∧
    head calls = Some (move_to_folder keep_file) ∧
    calls `prefix_of` calls_gallery ∧
    (moved keep_file = false → calls = [move_to_folder keep_file]) ∧
    (moved keep_file = true → calls = calls_gallery).
Proof.
  intros [->|[v ->]]; cbn [review_action_standalone review_action].
  - destruct (get_largest_file getsize files) as [k|]; [|done].
    cbn [mbind option_bind]. intros [= <-]. eexists k, _. split; [done|].
    destruct (moved k); split_and!; try done.
    by apply prefix_cons, prefix_nil.
  - destruct (files !! v) as [k|]; [|done].
    cbn [mbind option_bind]. intros [= <-]. eexists k, _. split; [done|].
    destruct (moved k); split_and!; try done.
    by apply prefix_cons, prefix_nil.
Qed.
End review_facts.

Lemma review_group_once_witness :
  let files := filter (λ f, f ∈ DemoReview.on_disk) DemoReview.files in
  ((length files < 2)%nat ∨ Some keep_best = None →
   [move_to_folder "b.jpg"; send2trash "a.jpg"; send2trash "c.jpg"] = []) ∧
  ((2 ≤ length files)%nat → Some keep_best ≠ None →
   [move_to_folder "b.jpg"; send2trash "a.jpg"; send2trash "c.jpg"] ≠ [] ∧
   call_path <$> [move_to_folder "b.jpg"; send2trash "a.jpg"; send2trash "c.jpg"]
     ≡ₚ files).
Proof.
  apply (review_group_once DemoReview.getsize DemoReview.on_disk ∅
           DemoReview.files (Some keep_best)).
  - by apply (bool_decide_unpack _); vm_compute.
  - by vm_compute.
Defined.

Lemma nothing_ticked_witness :
  review_action DemoReview.getsize ∅ DemoReview.files keep_selected =
    review_action DemoReview.getsize ∅ DemoReview.files delete_all ∧
  review_action DemoReview.getsize ∅ DemoReview.files delete_selected =
    review_action DemoReview.getsize ∅ DemoReview.files skip.
Proof.
  apply (nothing_ticked DemoReview.getsize ∅ DemoReview.files).
  intros i _. apply not_elem_of_empty.
Defined.

Lemma standalone_trash_needs_move_witness :
  ∃ keep_file calls_gallery,
    review_action DemoReview.getsize ∅ DemoReview.files keep_best
      = Some calls_gallery ∧
    head [move_to_folder "b.jpg"] = Some (move_to_folder keep_file) ∧
    [move_to_folder "b.jpg"] `prefix_of` calls_gallery ∧
    ((λ _, false) keep_file = false →
     [move_to_folder "b.jpg"] = [move_to_folder keep_file]) ∧
    ((λ _, false) keep_file = true → [move_to_folder "b.jpg"] = calls_gallery).
Proof.
  apply (standalone_trash_needs_move DemoReview.getsize (λ _, false) ∅
           DemoReview.files keep_best).
  - by left.
  - by vm_compute.
Defined.

(** The two programs on one group when the move of the kept file fails:
    the gallery program still trashes the others. *)
Example failed_move_gallery :
  review_action DemoReview.getsize ∅ DemoReview.files keep_best =
  Some [move_to_folder "b.jpg"; send2trash "a.jpg"; send2trash "c.jpg"].
Proof. by vm_compute. Qed.

Example failed_move_standalone :
  review_action_standalone DemoReview.getsize (λ _, false) DemoReview.files
    keep_best = Some [move_to_folder "b.jpg"].
Proof. by vm_compute. Qed.

(** ** Reviewing the report of an analysis after a clean-up *)
Section review_report_facts.
Context (hs : md5_hasher) (fs : filesystem) (t : Z).
Context (getsize : path → option nat).
Implicit Types (eg : list (string * list path)) (gs : list (list path))
  (files g : list path) (p q : path) (h key : string) (d : disk).

Lemma filter_visual_report eg gs :
  filter (λ r, type r = "visual_duplicate") (exact_rows eg ++ visual_rows gs) =
  visual_rows gs.
Proof.
  rewrite filter_app, filter_none, filter_all; [done | |].
  - by intros r (n & g & _ & _ & ->)%elem_of_visual_rows.
  - by intros r (h & ps & _ & _ & ->)%elem_of_exact_rows.
Qed.

Lemma visual_group_id_inj (i j : nat) :
  visual_group_id i = visual_group_id j → i = j.
Proof.
  unfold visual_group_id. intros E.
  apply (inj (String.app "visual_group_")) in E. by apply (inj pretty) in E.
Qed.

Lemma imap_rows_group gs (n k : nat) g (f : nat → list path → nat * list path) :
  (∀ i x, f i x = ((k + i)%nat, x)) → gs !! n = Some g →
  file_path <$> filter (λ r, group_id r = visual_group_id (k + n))
    (ig ← imap f gs;
     (λ file, {| type := "visual_duplicate";
                 group_id := visual_group_id ig.1;
                 file_path := file |}) <$> ig.2) = g.
Proof.
  revert n k f. induction gs as [|g0 gs IH]; intros n k f Hf Hn; [done|].
  assert (∀ i x, (f ∘ S) i x = ((S k + i)%nat, x)) as Hf'.
  { intros i x. unfold compose. rewrite Hf. f_equal. lia. }
  rewrite imap_cons, bind_cons, filter_app, fmap_app, Hf. cbn [fst snd].
  destruct n as [|n].
  - injection Hn as ->. rewrite filter_all; last first.
    { intros r (x & -> & _)%list_elem_of_fmap. cbn [group_id]. f_equal. }
    rewrite filter_none, app_nil_r.
    + rewrite <-list_fmap_compose. apply list_fmap_id.
    + intros r ([i x] & (y & -> & _)%list_elem_of_fmap & Hix)%list_elem_of_bind.
      apply elem_of_lookup_imap in Hix as (i' & x' & E & _).
      rewrite Hf' in E. injection E as -> ->. cbn [group_id fst].
      intros E%visual_group_id_inj. lia.
  - rewrite filter_none; last first.
    { intros r (x & -> & _)%list_elem_of_fmap. cbn [group_id].
      intros E%visual_group_id_inj. lia. }
    rewrite app_nil_l. replace (k + S n)%nat with (S k + n)%nat by lia.
    by apply IH.
Qed.

Lemma visual_rows_group gs (n : nat) g :
  gs !! n = Some g →
  file_path <$> filter (λ r, group_id r = visual_group_id n) (visual_rows gs) = g.
Proof. intros Hn. by apply (imap_rows_group gs n 0). Qed.

Lemma elem_of_review_groups eg gs key g :
  (key, g) ∈ review_groups (exact_rows eg ++ visual_rows gs) →
  ∃ n : nat, gs !! n = Some g ∧ key = visual_group_id n.
Proof.
  unfold review_groups. rewrite filter_visual_report.
  intros ([k rows] & [= -> ->] & [Hk ->]%elem_of_groupby)%list_elem_of_fmap.
  apply list_elem_of_fmap in Hk as (r & -> & Hr).
  apply elem_of_visual_rows in Hr as (n & g & Hn & _ & ->). cbn [group_id].
  exists n. split; [|done]. by rewrite (visual_rows_group gs n g).
Qed.

Lemma review_groups_group files rows key g :
  analyze hs fs t files = Some rows → (key, g) ∈ review_groups rows →
  NoDup g ∧ g `sublist_of` files.
Proof.
  rewrite analyze_rows.
  destruct (visual_groups hs fs t files) as [gs|] eqn:Egs; [|done].
  intros [= <-] (n & Hn%list_elem_of_lookup_2 & _)%elem_of_review_groups.
  destruct (visual_groups_group hs fs t files gs g Egs Hn)
    as (seed & ms & s0 & _ & _ & Hnd & Hsub & _).
  done.
Qed.

(** What a clean-up of the report leaves of the scanned files. *)
Lemma clean_survivors files rows d p :
  NoDup files → analyze hs fs t files = Some rows →
  (∀ q, q ∈ files → q ∈ present d → q ∉ locked d) →
  p ∈ files →
  p ∈ present (clean_exact_duplicates false (Some rows) d).1 →
  p ∈ present d ∧
  ∀ h, get_file_hash hs fs p default_chunk_size = Some h → h ≠ "" →
       head (digest_class hs fs h files) = Some p.
Proof.
  intros Hnd Hrows Hfree Hp.
  assert (∀ f, f ∈ delete_candidates rows → f ∈ present d → f ∉ locked d)
    as Hfree'.
  { intros f (h & _ & Hf & _)%(analysis_candidates hs fs t files rows f Hnd Hrows).
    by apply Hfree. }
  destruct (clean_exact_duplicates_disk false rows d) as [Hdisk _].
  rewrite Hdisk, (clean_frame_finished rows d Hfree'). cbn [fst present].
  rewrite elem_of_difference, elem_of_list_to_set.
  rewrite (analysis_candidates hs fs t files rows p Hnd Hrows).
  intros [Hin Hnot]. split; [done|]. intros h Hd Hh.
  destruct (decide (head (digest_class hs fs h files) = Some p)); [done|].
  destruct Hnot. by exists h.
Qed.

Lemma short_of_equal {A} (l : list A) :
  NoDup l → (∀ x y, x ∈ l → y ∈ l → x = y) → (length l < 2)%nat.
Proof.
  intros Hnd Heq. destruct l as [|x [|y l]]; cbn [length]; [lia | lia |].
  apply NoDup_cons in Hnd as [Hx _]. destruct Hx.
  rewrite (Heq x y); [by left | by left | by right; left].
Qed.

(** X19.  Reviewing a group of the report of an analysis after a clean-up
    of that report that was no dry run, with no scanned file locked:
    every call is on a scanned file the clean-up left; no two files the
    review acts on have the same non-empty digest; and a group whose
    files all have one non-empty digest is passed over. *)
Theorem review_after_clean files rows d key g sel choice calls :
  NoDup files → analyze hs fs t files = Some rows →
  (∀ p, p ∈ files → p ∈ present d → p ∉ locked d) →
  (key, g) ∈ review_groups rows →
  let d' := (clean_exact_duplicates false (Some rows) d).1 in
  review_group getsize (present d') sel g choice = Some calls →
  (∀ c, c ∈ calls → call_path c ∈ files ∧ call_path c ∈ present d') ∧
  (∀ c1 c2 h, c1 ∈ calls → c2 ∈ calls →
     get_file_hash hs fs (call_path c1) default_chunk_size = Some h →
     get_file_hash hs fs (call_path c2) default_chunk_size = Some h →
     h ≠ "" → call_path c1 = call_path c2) ∧
  ((∃ h, h ≠ "" ∧
         ∀ p, p ∈ g → get_file_hash hs fs p default_chunk_size = Some h) →
   calls = []).
Proof.
  intros Hnd Hrows Hfree Hg d' Hrun.
  destruct (review_groups_group files rows key g Hrows Hg) as [Hndg Hsub].
  assert (∀ c, c ∈ calls →
            call_path c ∈ g ∧ call_path c ∈ present d') as Hcalls.
  { unfold review_group in Hrun.
    destruct (decide (length (filter (λ f, f ∈ present d') g) < 2)%nat).
    { injection Hrun as <-. by intros c ?%elem_of_nil. }
    destruct choice as [a|]; last first.
    { injection Hrun as <-. by intros c ?%elem_of_nil. }
    apply review_action_paths in Hrun; [|by apply NoDup_filter].
    intros c Hc.
    assert (call_path c ∈ filter (λ f, f ∈ present d') g)
      as [? ?]%list_elem_of_filter; [|done].
    rewrite <-Hrun. apply list_elem_of_fmap. by exists c. }
  assert (∀ p q h, p ∈ g → q ∈ g → p ∈ present d' → q ∈ present d' →
            get_file_hash hs fs p default_chunk_size = Some h →
            get_file_hash hs fs q default_chunk_size = Some h →
            h ≠ "" → p = q) as Hone.
  { intros p q h Hp Hq Hpd Hqd Hdp Hdq Hh.
    assert (p ∈ files) as Hpf by by eapply elem_of_sublist.
    assert (q ∈ files) as Hqf by by eapply elem_of_sublist.
    destruct (clean_survivors files rows d p Hnd Hrows Hfree Hpf Hpd) as [_ E1].
    destruct (clean_survivors files rows d q Hnd Hrows Hfree Hqf Hqd) as [_ E2].
    specialize (E1 h Hdp Hh). specialize (E2 h Hdq Hh). congruence. }
  split_and!.
  - intros c [Hc ?]%Hcalls. split; [|done]. by eapply elem_of_sublist.
  - intros c1 c2 h [? ?]%Hcalls [? ?]%Hcalls ? ? ?. by apply (Hone _ _ h).
  - intros (h & Hh & Hall). unfold review_group in Hrun.
    rewrite decide_True in Hrun; [by injection Hrun|].
    apply short_of_equal; [by apply NoDup_filter|].
    intros x y [? ?]%list_elem_of_filter [? ?]%list_elem_of_filter.
    apply (Hone x y h); try done; by apply Hall.
Qed.
End review_report_facts.

Lemma review_after_clean_witness :
  let d' := (clean_exact_duplicates false (Some DemoClean.report)
               DemoClean.disk0).1 in
  let calls := [move_to_folder "a.jpg"; move_to_folder "c.jpg";
                move_to_folder "g.jpg"] in
  (∀ c, c ∈ calls → call_path c ∈ Demo.gallery ∧ call_path c ∈ present d') ∧
  (∀ c1 c2 h, c1 ∈ calls → c2 ∈ calls →
     get_file_hash Demo.plain_hasher Demo.gallery_fs (call_path c1)
       default_chunk_size = Some h →
     get_file_hash Demo.plain_hasher Demo.gallery_fs (call_path c2)
       default_chunk_size = Some h →
     h ≠ "" → call_path c1 = call_path c2) ∧
  ((∃ h, h ≠ "" ∧
         ∀ p, p ∈ ["a.jpg"; "b.jpg"; "c.jpg"; "g.jpg"] →
              get_file_hash Demo.plain_hasher Demo.gallery_fs p
                default_chunk_size = Some h) →
   calls = []).
Proof.
  assert (NoDup Demo.gallery) as Hnd by compute_done.
  apply (review_after_clean Demo.plain_hasher Demo.gallery_fs
           SIMILARITY_THRESHOLD DemoReview.getsize Demo.gallery
           DemoClean.report DemoClean.disk0 "visual_group_0"
           ["a.jpg"; "b.jpg"; "c.jpg"; "g.jpg"] ∅ (Some skip) _ Hnd).
  - by vm_compute.
  - intros p _ _. unfold DemoClean.disk0. cbn [locked]. apply not_elem_of_empty.
  - vm_compute. left.
  - by vm_compute.
Defined.

(** The review of the gallery after its clean-up: [b.jpg] is gone, the
    three files left of the group are moved on "skip". *)
Example review_after_clean_run :
  review_group DemoReview.getsize
    (present (clean_exact_duplicates false (Some DemoClean.report)
                DemoClean.disk0).1)
    ∅ ["a.jpg"; "b.jpg"; "c.jpg"; "g.jpg"] (Some skip) =
  Some [move_to_folder "a.jpg"; move_to_folder "c.jpg"; move_to_folder "g.jpg"].
Proof. by vm_compute. Qed.
